(** * Quote rewriting of Python string literals

    A shallow embedding of [gray_formatter/quotes_rewriter.py]: the
    [Rewriter] base class (edit list and the bottom-up splice of [rewrite])
    and the [QuoteRewriter] visitor (docstring marking and the per-literal
    decision of [rewrite_quotes_for_node]).

    Python values are modelled as follows.
    - a [str] is a list of Unicode code points, each an [N];
    - an offset into the source is a [nat], a text range a pair of them;
    - the parse tree delivered by [asttokens.ASTTokens(source, parse=True)]
      is an input: an inductive [Node] whose string constants carry the
      range that [tokens.get_text_range] answers for them;
    - the attribute [is_docstring] that [visit_definition] attaches to a
      node is a boolean field of every node, [false] in a freshly parsed
      tree (the code reads it with [getattr] and the default [False]). *)

From Stdlib Require Import String Ascii List NArith Arith Bool Lia.
From Stdlib Require Import Sorted Permutation.
From Equations Require Import Equations.
Import ListNotations.

Set Warnings "-register-all".
Local Open Scope N_scope.

(** ** Strings *)

Definition char := N.
Definition str := list char.

(** The code points the program names. *)
Definition SQ : char := 39.        (* ' *)
Definition DQ : char := 34.        (* the double quote *)
Definition BACKSLASH : char := 92.
Definition NL : char := 10.
Definition TAB : char := 9.
Definition CR : char := 13.

(** A Rocq string read as a Python [str] (used to write examples). *)
Definition py (s : string) : str := map N_of_ascii (list_ascii_of_string s).

Definition squoted (s : str) : str := SQ :: s ++ [SQ].
Definition dquoted (s : str) : str := DQ :: s ++ [DQ].

Definition str_eqb (a b : str) : bool :=
  if list_eq_dec N.eq_dec a b then true else false.

(** [source[a:b]] for offsets [0 <= a], [0 <= b]: both ends are clamped to
    the length, and the slice is empty when [b <= a]. *)
Definition slice (s : str) (a b : nat) : str := firstn (b - a) (skipn a s).

(** [c in s] for a one-character [c]. *)
Definition has_char (c : char) (s : str) : bool := existsb (N.eqb c) s.

Fixpoint starts_with (p s : str) : bool :=
  match p, s with
  | [], _ => true
  | _ :: _, [] => false
  | a :: p', b :: s' => (a =? b) && starts_with p' s'
  end.

(** [p in s] for strings: [p] occurs as a contiguous run of [s]. *)
Fixpoint has_substr (p s : str) : bool :=
  starts_with p s ||
  match s with
  | [] => false
  | _ :: s' => has_substr p s'
  end.

(** ** [repr] of a [str]

    The program calls the builtin [repr] on the decoded value.  It is
    CPython's [unicode_repr]: single quotes are the default delimiter,
    double quotes are chosen exactly when the value holds a single quote and
    no double quote; the delimiter and the backslash are escaped with a
    backslash, tab, newline and carriage return by their letters, the other
    control characters and the non-printable ones by [\xhh], [\uhhhh] or
    [\Uhhhhhhhh] with lower-case digits.  Which code points from 128 up
    are printable is the Unicode database's table, a parameter here. *)

Definition hexdigit (d : N) : char := if d <? 10 then 48 + d else 87 + d.

(** The [k]-th hexadecimal digit of [ch], counted from the right. *)
Definition nibble (ch : N) (k : N) : N := N.land (N.shiftr ch (4 * k)) 15.

Definition hex2 (ch : N) : str := [hexdigit (nibble ch 1); hexdigit (nibble ch 0)].
Definition hex4 (ch : N) : str :=
  [hexdigit (nibble ch 3); hexdigit (nibble ch 2);
   hexdigit (nibble ch 1); hexdigit (nibble ch 0)].
Definition hex8 (ch : N) : str :=
  [hexdigit (nibble ch 7); hexdigit (nibble ch 6);
   hexdigit (nibble ch 5); hexdigit (nibble ch 4);
   hexdigit (nibble ch 3); hexdigit (nibble ch 2);
   hexdigit (nibble ch 1); hexdigit (nibble ch 0)].

Definition repr_quote (s : str) : char :=
  if has_char SQ s && negb (has_char DQ s) then DQ else SQ.

Section Repr.

(** [Py_UNICODE_ISPRINTABLE], consulted for code points from 128 up only. *)
Variable isprintable : char -> bool.

Definition repr_char (quote ch : char) : str :=
  if (ch =? quote) || (ch =? BACKSLASH) then [BACKSLASH; ch]
  else if ch =? TAB then [BACKSLASH; 116]
  else if ch =? NL then [BACKSLASH; 110]
  else if ch =? CR then [BACKSLASH; 114]
  else if (ch <? 32) || (ch =? 127) then BACKSLASH :: 120 :: hex2 ch
  else if ch <? 127 then [ch]
  else if negb (isprintable ch) then
    if ch <=? 255 then BACKSLASH :: 120 :: hex2 ch
    else if ch <=? 65535 then BACKSLASH :: 117 :: hex4 ch
    else BACKSLASH :: 85 :: hex8 ch
  else [ch].

Definition repr (s : str) : str :=
  let quote := repr_quote s in
  quote :: flat_map (repr_char quote) s ++ [quote].

End Repr.

(** ** The parse tree *)

Definition text_range := (nat * nat)%type.

Definition range_eqb (r1 r2 : text_range) : bool :=
  Nat.eqb (fst r1) (fst r2) && Nat.eqb (snd r1) (snd r2).

(** The value of an [ast.Constant]: a [str], or anything else (numbers,
    bytes, [None], ...). *)
Inductive constant :=
  | VStr (s : str)
  | VOther.

Inductive def_kind := ClassDef | FunctionDef | AsyncFunctionDef.

(** The nodes the visitor tells apart.  Children are listed in the order
    [ast.NodeVisitor.generic_visit] walks the fields: for a definition the
    fields before [body] (arguments, bases, keywords), the body, and the
    fields after it (decorators, return annotation).  [Other] stands for
    every remaining node class. *)
Inductive Node :=
  | Constant (is_docstring : bool) (value : constant) (range : text_range)
  | Expr (is_docstring : bool) (value : Node)
  | Definition_ (is_docstring : bool) (kind : def_kind)
                (before body after : list Node)
  | Module (is_docstring : bool) (body : list Node)
  | Other (is_docstring : bool) (children : list Node).

Fixpoint node_size (n : Node) : nat :=
  let sizes := fix sizes (l : list Node) : nat :=
    match l with
    | [] => O
    | x :: l' => (node_size x + sizes l')%nat
    end in
  match n with
  | Constant _ _ _ => 1%nat
  | Expr _ v => S (node_size v)
  | Definition_ _ _ b1 b2 b3 => S (sizes b1 + sizes b2 + sizes b3)
  | Module _ b => S (sizes b)
  | Other _ ch => S (sizes ch)
  end.

Definition nodes_size (l : list Node) : nat :=
  fold_right (fun x acc => (node_size x + acc)%nat) O l.

(** [node.is_docstring = True] *)
Definition set_is_docstring (n : Node) : Node :=
  match n with
  | Constant _ v r => Constant true v r
  | Expr _ v => Expr true v
  | Definition_ _ k b1 b2 b3 => Definition_ true k b1 b2 b3
  | Module _ b => Module true b
  | Other _ ch => Other true ch
  end.

(** ** [Rewriter] *)

Definition replacement := (text_range * str)%type.

Record Rewriter := mkRewriter {
  source : str;
  replacements : list replacement
}.

Definition record_replacement (self : Rewriter) (r : text_range)
    (new_source : str) : Rewriter :=
  mkRewriter (source self) (replacements self ++ [(r, new_source)]).

(** [sorted(self.replacements, key=itemgetter(0), reverse=True)]: a stable
    sort on the range, compared as a tuple, largest first. *)
Definition range_leb (r1 r2 : text_range) : bool :=
  (fst r1 <? fst r2)%nat || (Nat.eqb (fst r1) (fst r2) && (snd r1 <=? snd r2)%nat).

Fixpoint insert_desc (x : replacement) (l : list replacement) : list replacement :=
  match l with
  | [] => [x]
  | y :: l' =>
      if range_leb (fst y) (fst x) then x :: l else y :: insert_desc x l'
  end.

Definition sorted_desc (l : list replacement) : list replacement :=
  fold_right insert_desc [] l.

(** One turn of the loop of [rewrite]. *)
Definition splice (reformatted_source : str) (e : replacement) : str :=
  let '((start, end_), new_source) := e in
  let source_before := firstn start reformatted_source in
  let source_after := skipn end_ reformatted_source in
  source_before ++ new_source ++ source_after.

Definition apply_replacements (src : str) (l : list replacement) : str :=
  fold_left splice (sorted_desc l) src.

(** ** [QuoteRewriter] *)

Definition is_empty_literal (string : str) : bool :=
  str_eqb string [DQ; DQ] || str_eqb string [SQ; SQ].

(** [re.match] against the pattern: a double or a single quote at the
    start of [string]. *)
Definition starts_with_quote (string : str) : bool :=
  match string with
  | c :: _ => (c =? DQ) || (c =? SQ)
  | [] => false
  end.

Section Visitor.

Variable isprintable : char -> bool.

(** [rewrite_quotes_for_node] for a string constant with attribute
    [is_docstring], value [s] ([node.s]) and range [text_range]. *)
Definition rewrite_quotes_for_node (self : Rewriter) (is_docstring : bool)
    (s : str) (r : text_range) : Rewriter :=
  if range_eqb r (O, O) then self
  else
    let string := slice (source self) (fst r) (snd r) in
    if is_docstring then self
    else if is_empty_literal string then record_replacement self r [SQ; SQ]
    else if negb (starts_with_quote string) then self
    else if Nat.eqb (length s) 1 then record_replacement self r (repr isprintable s)
    else if has_char NL string then self
    else if has_char NL s || has_substr [BACKSLASH; 110] s then self
    else record_replacement self r (repr isprintable s).

(** The marking step of [visit_definition]: when the body is not empty and
    its first statement is an [ast.Expr], the value of that statement gets
    the attribute. *)
Definition mark_docstring (body : list Node) : list Node :=
  match body with
  | Expr d doc_node :: rest => Expr d (set_is_docstring doc_node) :: rest
  | _ => body
  end.

(** The recursion of [visit] is on the size of the node: marking does not
    change it. *)
Lemma nodes_size_eq (l : list Node) :
  nodes_size l =
  (fix sizes (l : list Node) : nat :=
     match l with
     | [] => O
     | x :: l' => (node_size x + sizes l')%nat
     end) l.
Proof. induction l as [|x l IH]; simpl; [reflexivity | now rewrite <- IH]. Qed.

Lemma nodes_size_app (l1 l2 : list Node) :
  nodes_size (l1 ++ l2) = (nodes_size l1 + nodes_size l2)%nat.
Proof. induction l1 as [|x l1 IH]; simpl; [reflexivity | rewrite IH; lia]. Qed.

Lemma node_size_set_is_docstring (n : Node) :
  node_size (set_is_docstring n) = node_size n.
Proof. destruct n; reflexivity. Qed.

Lemma nodes_size_mark (body : list Node) :
  nodes_size (mark_docstring body) = nodes_size body.
Proof.
  destruct body as [|[] rest]; try reflexivity.
  simpl. now rewrite node_size_set_is_docstring.
Qed.

Lemma node_size_in (item : Node) (l : list Node) :
  In item l -> (node_size item <= nodes_size l)%nat.
Proof.
  induction l as [|x l IH]; simpl; [tauto|].
  intros [->|H]; [lia | specialize (IH H); lia].
Qed.

(** [generic_visit] on the children of a node, in the order of the fields:
    [self.visit(item)] for each, the callee receiving the evidence that
    [item] is one of the children. *)
Fixpoint generic_visit (l : list Node)
    : (forall item, In item l -> Rewriter -> Rewriter) -> Rewriter -> Rewriter :=
  match l with
  | [] => fun _ self => self
  | item :: l' => fun visit self =>
      generic_visit l' (fun x H => visit x (or_intror H))
                 (visit item (or_introl eq_refl) self)
  end.

(** [visit]: the dispatch of [ast.NodeVisitor.visit] on the node class,
    with [visit_Constant] (a constant that is not a string has no child to
    walk), [visit_definition] (reached from [visit_ClassDef],
    [visit_FunctionDef] and [visit_AsyncFunctionDef]: mark, then
    [generic_visit]) and [generic_visit] for the rest. *)
Equations? visit (node : Node) (self : Rewriter) : Rewriter
    by wf (node_size node) lt :=
  visit (Constant d (VStr s) r) self := rewrite_quotes_for_node self d s r;
  visit (Constant d VOther r) self := self;
  visit (Expr d value) self := visit value self;
  visit (Definition_ d k before body after) self :=
    generic_visit (before ++ mark_docstring body ++ after)
               (fun item H st => visit item st) self;
  visit (Module d body) self :=
    generic_visit body (fun item H st => visit item st) self;
  visit (Other d children) self :=
    generic_visit children (fun item H st => visit item st) self.
Proof.
  - apply Nat.lt_succ_r.
    rewrite <- (nodes_size_eq before), <- (nodes_size_eq body),
      <- (nodes_size_eq after), <- (nodes_size_mark body), <- !nodes_size_app.
    rewrite <- app_assoc. now apply node_size_in.
  - apply Nat.lt_succ_r. rewrite <- nodes_size_eq. now apply node_size_in.
  - apply Nat.lt_succ_r. rewrite <- nodes_size_eq. now apply node_size_in.
Qed.

(** [Rewriter.rewrite] on the source and the tree that [__init__] obtained
    for it. *)
Definition rewrite (src : str) (tree : Node) : str :=
  let self := visit tree (mkRewriter src []) in
  apply_replacements (source self) (replacements self).

End Visitor.

(** ** Evaluation of a string literal

    What Python's parser computes from the spelling of an unprefixed
    single-line literal (Language Reference, String and Bytes literals):
    the text between two equal quotes, with the escape sequences replaced.
    A backslash before a character that starts no escape sequence stays in
    the value.  The answer is [None] for every other spelling: prefixed or
    triple-quoted literals, concatenations, a named escape, a broken
    literal. *)

Definition hexval (c : char) : option N :=
  if (48 <=? c) && (c <=? 57) then Some (c - 48)
  else if (97 <=? c) && (c <=? 102) then Some (c - 87)
  else if (65 <=? c) && (c <=? 70) then Some (c - 55)
  else None.

Fixpoint hex_value (acc : N) (digits : str) : option N :=
  match digits with
  | [] => Some acc
  | d :: digits' =>
      match hexval d with
      | Some v => hex_value (16 * acc + v) digits'
      | None => None
      end
  end.

Definition is_octal (c : char) : bool := (48 <=? c) && (c <=? 55).

(** The simple escapes: the character after the backslash and its value. *)
Definition simple_escape (e : char) : option char :=
  if e =? BACKSLASH then Some BACKSLASH
  else if e =? SQ then Some SQ
  else if e =? DQ then Some DQ
  else if e =? 97 then Some 7
  else if e =? 98 then Some 8
  else if e =? 102 then Some 12
  else if e =? 110 then Some NL
  else if e =? 114 then Some CR
  else if e =? 116 then Some TAB
  else if e =? 118 then Some 11
  else None.

Definition emit (c : char) (tail : option str) : option str :=
  option_map (cons c) tail.

(** A [\x], [\u] or [\U] escape: [digits] in hexadecimal, at most 0x10FFFF. *)
Definition hex_escape (digits : str) (tail : option str) : option str :=
  match hex_value 0 digits with
  | Some v => if v <=? 1114111 then emit v tail else None
  | None => None
  end.

Fixpoint decode_body (quote : char) (l : str) : option str :=
  match l with
  | [] => None
  | c :: rest =>
      if c =? quote then
        match rest with [] => Some [] | _ :: _ => None end
      else if (c =? NL) || (c =? CR) || (c =? 0) then None
      else if negb (c =? BACKSLASH) then emit c (decode_body quote rest)
      else
        match rest with
        | [] => None
        | e :: rest1 =>
            match simple_escape e with
            | Some v => emit v (decode_body quote rest1)
            | None =>
                if e =? NL then decode_body quote rest1
                else if e =? 120 then
                  match rest1 with
                  | h1 :: h2 :: rest2 =>
                      hex_escape [h1; h2] (decode_body quote rest2)
                  | _ => None
                  end
                else if e =? 117 then
                  match rest1 with
                  | h1 :: h2 :: h3 :: h4 :: rest2 =>
                      hex_escape [h1; h2; h3; h4] (decode_body quote rest2)
                  | _ => None
                  end
                else if e =? 85 then
                  match rest1 with
                  | h1 :: h2 :: h3 :: h4 :: h5 :: h6 :: h7 :: h8 :: rest2 =>
                      hex_escape [h1; h2; h3; h4; h5; h6; h7; h8]
                                 (decode_body quote rest2)
                  | _ => None
                  end
                else if e =? 78 then None
                else if is_octal e then
                  match rest1 with
                  | o2 :: rest2 =>
                      if is_octal o2 then
                        match rest2 with
                        | o3 :: rest3 =>
                            if is_octal o3 then
                              emit (64 * (e - 48) + 8 * (o2 - 48) + (o3 - 48))
                                   (decode_body quote rest3)
                            else
                              emit (8 * (e - 48) + (o2 - 48))
                                   (decode_body quote rest2)
                        | [] =>
                            emit (8 * (e - 48) + (o2 - 48))
                                 (decode_body quote rest2)
                        end
                      else emit (e - 48) (decode_body quote rest1)
                  | [] => emit (e - 48) (decode_body quote rest1)
                  end
                else if (e =? CR) || (e =? 0) then None
                else emit BACKSLASH (emit e (decode_body quote rest1))
            end
        end
  end.

Definition decode_literal (spelling : str) : option str :=
  match spelling with
  | quote :: body =>
      if (quote =? SQ) || (quote =? DQ) then decode_body quote body else None
  | [] => None
  end.

(** A Python [str] holds code points up to 0x10FFFF. *)
Definition valid_str (s : str) : Prop := Forall (fun c => c <= 1114111) s.

(** The agreement of the tree with the source that the parser provides:
    where the spelling is one the evaluation above covers, the value of the
    node is its result. *)
Definition value_of_spelling (spelling s : str) : Prop :=
  forall s', decode_literal spelling = Some s' -> s' = s.

(** The printable code points below 256 (the Unicode database puts the
    C1 controls, the no-break space and the soft hyphen among the
    non-printable ones); used to run examples. *)
Definition isprintable_latin1 (c : char) : bool :=
  (160 <? c) && (c <? 256) && negb (c =? 173).

(** * Vocabulary of the statements *)

(** The literals that reach the last branch of [rewrite_quotes_for_node]. *)
Definition eligible (string s : str) : bool :=
  starts_with_quote string
  && negb (is_empty_literal string)
  && negb (Nat.eqb (length s) 1)
  && negb (has_char NL string)
  && negb (has_char NL s || has_substr [BACKSLASH; 110] s).

(** The value holds a newline, or a backslash followed by n: the test of
    the last guard of [rewrite_quotes_for_node]. *)
Definition newline_content (s : str) : bool :=
  has_char NL s || has_substr [BACKSLASH; 110] s.

(** The [n] rightmost hexadecimal digits of [ch], as [hex2], [hex4] and
    [hex8] write them. *)
Fixpoint hex_digits (n : nat) (ch : N) : str :=
  match n with
  | O => []
  | S n' => hexdigit (nibble ch (N.of_nat n')) :: hex_digits n' ch
  end.

(** ** Example programs

    Each source comes with the tree the parser gives for it: an assignment
    is an [Other] node over its target (a name) and its value. *)

Definition assign (value : Node) : Node := Other false [Other false []; value].

(** [z = 'hello'] *)
Definition hello_source : str := py "z = " ++ squoted (py "hello").
Definition hello_tree : Node :=
  Module false [assign (Constant false (VStr (py "hello")) (4, 11)%nat)].

(** [x = ...] with [hello] between triple double quotes *)
Definition triple_source : str :=
  py "x = " ++ [DQ; DQ; DQ] ++ py "hello" ++ [DQ; DQ; DQ].
Definition triple_tree : Node :=
  Module false [assign (Constant false (VStr (py "hello")) (4, 15)%nat)].

(** [x = ...] with a double-quoted backslash and n: the value is the
    newline character *)
Definition newline_source : str := py "x = " ++ dquoted [BACKSLASH; 110].
Definition newline_tree : Node :=
  Module false [assign (Constant false (VStr [NL]) (4, 8)%nat)].

(** [x = ...] with a double-quoted single quote: the value is the single
    quote *)
Definition quote_source : str := py "x = " ++ dquoted [SQ].
Definition quote_tree : Node :=
  Module false [assign (Constant false (VStr [SQ]) (4, 7)%nat)].

(** A function whose body is the empty docstring:
    [def f():] followed on the next line by two double quotes. *)
Definition empty_doc_source : str := py "def f():" ++ [NL] ++ py "    " ++ [DQ; DQ].
Definition empty_doc_tree : Node :=
  Module false
    [Definition_ false FunctionDef [Other false []]
       [Expr false (Constant false (VStr []) (13, 15)%nat)] []].

(** [x = 'ab' ...] with a double-quoted [cd] after the blank: one constant
    for the two adjacent parts *)
Definition concat_source : str :=
  py "x = " ++ squoted (py "ab") ++ py " " ++ dquoted (py "cd").
Definition concat_tree : Node :=
  Module false [assign (Constant false (VStr (py "abcd")) (4, 13)%nat)].

(** [x = ...] with triple double quotes around a line break: the value is
    the newline character *)
Definition triple_newline_source : str :=
  py "x = " ++ [DQ; DQ; DQ] ++ [NL] ++ [DQ; DQ; DQ].
Definition triple_newline_tree : Node :=
  Module false [assign (Constant false (VStr [NL]) (4, 11)%nat)].

(** [x = ...] with triple double quotes around [a], a line break and [b]. *)
Definition multiline_source : str :=
  py "x = " ++ [DQ; DQ; DQ] ++ py "a" ++ [NL] ++ py "b" ++ [DQ; DQ; DQ].

(** [x = 'a\nb'] *)
Definition escaped_newline_source : str := py "x = 'a\nb'".

(** A module that starts with a double-quoted [Module docs.] *)
Definition module_doc_source : str := dquoted (py "Module docs.") ++ [NL] ++ py "x = 1".
Definition module_doc_tree : Node :=
  Module false
    [Expr false (Constant false (VStr (py "Module docs.")) (0, 14)%nat);
     assign (Constant false VOther (19, 20)%nat)].

(** [x = 'ab' ...; y = ...]: the concatenation above, then a double-quoted
    [hello] assigned to [y]; and the tree of the text that [rewrite] makes
    of it, [x = 'abcd'; y = 'hello']. *)
Definition two_source : str :=
  py "x = " ++ squoted (py "ab") ++ py " " ++ dquoted (py "cd") ++
  py "; y = " ++ dquoted (py "hello").
Definition two_tree : Node :=
  Module false
    [assign (Constant false (VStr (py "abcd")) (4, 13)%nat);
     assign (Constant false (VStr (py "hello")) (19, 26)%nat)].

(** [s = ...] with a double-quoted [it's] *)
Definition its_source : str := py "s = " ++ dquoted (py "it's").

Local Open Scope nat_scope.

(** ** Spans that do not overlap *)

Definition in_text (len : nat) (r : text_range) : Prop := fst r < snd r <= len.

Definition apart (r1 r2 : text_range) : Prop :=
  snd r1 <= fst r2 \/ snd r2 <= fst r1.

Definition non_overlapping (len : nat) (spans : list text_range) : Prop :=
  NoDup spans /\ Forall (in_text len) spans /\
  forall r1 r2, In r1 spans -> In r2 spans -> r1 = r2 \/ apart r1 r2.

(** Edits laid out from [pos] on: each span starts after the one before
    ends, and the last one ends inside the text. *)
Fixpoint chained (pos : nat) (l : list replacement) (len : nat) : Prop :=
  match l with
  | [] => pos <= len
  | ((a, b), _) :: l' => pos <= a /\ a < b /\ chained b l' len
  end.

(** The source from [pos] on, with the edits of [l] in place of their
    spans and the text between the spans as it was. *)
Fixpoint interleave (src : str) (pos : nat) (l : list replacement) : str :=
  match l with
  | [] => skipn pos src
  | ((a, b), new_source) :: l' =>
      slice src pos a ++ new_source ++ interleave src b l'
  end.

(** Largest range first. *)
Definition descending : list replacement -> Prop :=
  StronglySorted (fun x y => range_leb (fst y) (fst x) = true).

Definition ascending_order : list replacement -> Prop :=
  StronglySorted (fun x y => range_leb (fst x) (fst y) = true).

(** The recorded edits in the order of the text. *)
Definition ascending (l : list replacement) : list replacement := rev (sorted_desc l).

(** ** The calls of a traversal *)

(** A call of [rewrite_quotes_for_node]: the docstring mark of the node at
    that moment, its value and its range. *)
Definition literal := (bool * str * text_range)%type.

(** The calls that the visit of a tree makes, in order.  The string
    constant that is the value of the first statement of a definition is
    reached with the mark set. *)
Fixpoint literals (n : Node) : list literal :=
  match n with
  | Constant d (VStr s) r => [(d, s, r)]
  | Constant _ VOther _ => []
  | Expr _ v => literals v
  | Definition_ _ _ before body after =>
      flat_map literals before ++
      match body with
      | Expr _ (Constant _ (VStr s) r) :: rest =>
          (true, s, r) :: flat_map literals rest
      | _ => flat_map literals body
      end ++
      flat_map literals after
  | Module _ body => flat_map literals body
  | Other _ children => flat_map literals children
  end.

Section Calls.

Variable isprintable : char -> bool.

(** The children visited from left to right, as [generic_visit] does. *)
Definition visit_all (l : list Node) (self : Rewriter) : Rewriter :=
  fold_left (fun st item => visit isprintable item st) l self.

Definition call (self : Rewriter) (x : literal) : Rewriter :=
  let '(d, s, r) := x in rewrite_quotes_for_node isprintable self d s r.

(** The text that [rewrite_quotes_for_node] chooses for a literal with a
    mapped range, from its mark, its spelling and its value. *)
Definition decision (d : bool) (string s : str) : option str :=
  if d then None
  else if is_empty_literal string then Some [SQ; SQ]
  else if negb (starts_with_quote string) then None
  else if Nat.eqb (length s) 1 then Some (repr isprintable s)
  else if has_char NL string then None
  else if has_char NL s || has_substr [BACKSLASH; 110%N] s then None
  else Some (repr isprintable s).

Definition recorded (src : str) (x : literal) : list replacement :=
  let '(d, s, r) := x in
  if range_eqb r (0, 0) then []
  else match decision d (slice src (fst r) (snd r)) s with
       | Some new_source => [(r, new_source)]
       | None => []
       end.

(** The edits of a run of [rewrite]. *)
Definition edits (src : str) (tree : Node) : list replacement :=
  flat_map (recorded src) (literals tree).

End Calls.

(** ** The tree of the rewritten text *)

(** The place, in [interleave src pos l], of the offset [x] of the source,
    for an [x] from [pos] on that is not strictly inside a span. *)
Fixpoint offset (pos : nat) (l : list replacement) (x : nat) : nat :=
  match l with
  | [] => x - pos
  | ((a, b), new_source) :: l' =>
      if x <=? a then x - pos
      else (a - pos) + length new_source + offset b l' x
  end.



(** The ranges of the literals that the span map resolves. *)
Definition mapped (r : text_range) : bool := negb (range_eqb r (0, 0)).

Definition mapped_spans (tree : Node) : list text_range :=
  filter mapped (map snd (literals tree)).

(** An edit that writes what its span already holds. *)
Definition fixed (text : str) (e : replacement) : Prop :=
  fst (fst e) <= snd (fst e) /\ slice text (fst (fst e)) (snd (fst e)) = snd e.

Local Close Scope nat_scope.

(** * Properties *)

(** ** The traversal *)

Section Traversal.

Variable isprintable : char -> bool.

Local Abbreviation visit := (visit isprintable).
Local Abbreviation visit_all := (visit_all isprintable).
Local Abbreviation rewrite_quotes_for_node := (rewrite_quotes_for_node isprintable).

Lemma generic_visit_fold (f : Node -> Rewriter -> Rewriter) (l : list Node) :
  forall (g : forall item, In item l -> Rewriter -> Rewriter) self,
    (forall item H st, g item H st = f item st) ->
    generic_visit l g self = fold_left (fun st item => f item st) l self.
Proof.
  induction l as [|x l IH]; intros g self Hg; simpl; [reflexivity|].
  rewrite Hg. apply IH. intros; apply Hg.
Qed.

Lemma visit_Other d children self :
  visit (Other d children) self = visit_all children self.
Proof. simp visit. now apply generic_visit_fold. Qed.

Lemma visit_Module d body self :
  visit (Module d body) self = visit_all body self.
Proof. simp visit. now apply generic_visit_fold. Qed.

Lemma visit_Definition d k before body after self :
  visit (Definition_ d k before body after) self =
  visit_all (before ++ mark_docstring body ++ after) self.
Proof. simp visit. now apply generic_visit_fold. Qed.

Lemma visit_Expr d value self : visit (Expr d value) self = visit value self.
Proof. now simp visit. Qed.

Lemma visit_Constant_str d s r self :
  visit (Constant d (VStr s) r) self = rewrite_quotes_for_node self d s r.
Proof. now simp visit. Qed.

Lemma visit_all_app l1 l2 self :
  visit_all (l1 ++ l2) self = visit_all l2 (visit_all l1 self).
Proof. apply fold_left_app. Qed.

Lemma visit_all_cons x l self :
  visit_all (x :: l) self = visit_all l (visit x self).
Proof. reflexivity. Qed.

(** ** The decision for one literal *)

Lemma slice_0_0 (s : str) : slice s 0 0 = [].
Proof. reflexivity. Qed.

Lemma range_eqb_eq r1 r2 : range_eqb r1 r2 = true <-> r1 = r2.
Proof.
  destruct r1 as [a1 b1], r2 as [a2 b2]; unfold range_eqb; simpl.
  rewrite andb_true_iff, !Nat.eqb_eq. split; [intros [-> ->]|intros [= -> ->]]; auto.
Qed.

Lemma str_eqb_eq a b : str_eqb a b = true <-> a = b.
Proof.
  unfold str_eqb. destruct (list_eq_dec N.eq_dec a b); split; congruence.
Qed.

Lemma is_empty_literal_spec string :
  is_empty_literal string = true <-> string = [DQ; DQ] \/ string = [SQ; SQ].
Proof. unfold is_empty_literal. now rewrite orb_true_iff, !str_eqb_eq. Qed.

(** A literal whose spelling starts with a quote has a mapped range. *)
Lemma quoted_is_mapped src r :
  starts_with_quote (slice src (fst r) (snd r)) = true ->
  range_eqb r (O, O) = false.
Proof.
  intros H. destruct (range_eqb r (O, O)) eqn:E; [|reflexivity].
  apply range_eqb_eq in E. subst r. discriminate H.
Qed.

Lemma empty_literal_starts_with_quote string :
  is_empty_literal string = true -> starts_with_quote string = true.
Proof. rewrite is_empty_literal_spec. now intros [-> | ->]. Qed.

(** The empty spelling has the empty value. *)
Lemma empty_literal_value string s :
  is_empty_literal string = true -> value_of_spelling string s -> s = [].
Proof.
  rewrite is_empty_literal_spec. intros [-> | ->] H; symmetry; now apply H.
Qed.

Lemma eligible_recorded self s r :
  eligible (slice (source self) (fst r) (snd r)) s = true ->
  rewrite_quotes_for_node self false s r =
  record_replacement self r (repr isprintable s).
Proof.
  unfold eligible, rewrite_quotes_for_node.
  rewrite !andb_true_iff, !negb_true_iff.
  intros [[[[Hq He] Hl] Hn] Hs].
  now rewrite (quoted_is_mapped _ _ Hq), He, Hq, Hl, Hn, Hs.
Qed.

End Traversal.

(** ** Round trip of [repr] through the evaluation of literals *)

Lemma nibble_spec ch k : nibble ch k = (ch / 2 ^ (4 * k)) mod 16.
Proof.
  unfold nibble. rewrite N.shiftr_div_pow2.
  change 15 with (N.ones 4). now rewrite N.land_ones.
Qed.

Lemma hexval_hexdigit d : d < 16 -> hexval (hexdigit d) = Some d.
Proof.
  intros H. unfold hexdigit, hexval.
  destruct (N.ltb_spec d 10).
  - replace ((48 <=? 48 + d) && (48 + d <=? 57)) with true.
    + f_equal; lia.
    + symmetry; apply andb_true_iff; split; apply N.leb_le; lia.
  - replace ((48 <=? 87 + d) && (87 + d <=? 57)) with false.
    + replace ((97 <=? 87 + d) && (87 + d <=? 102)) with true.
      * f_equal; lia.
      * symmetry; apply andb_true_iff; split; apply N.leb_le; lia.
    + symmetry; apply andb_false_iff; right; apply N.leb_gt; lia.
Qed.

Lemma nibble_lt ch k : nibble ch k < 16.
Proof. rewrite nibble_spec. apply N.mod_lt. discriminate. Qed.

(** Reading the digits back gives the number they were taken from. *)
Lemma hex_value_digits n : forall acc ch,
  hex_value acc (hex_digits n ch) = Some (acc * 16 ^ N.of_nat n + ch mod 16 ^ N.of_nat n).
Proof.
  induction n as [|n IH]; intros acc ch.
  - cbn [hex_digits hex_value]. f_equal. change (16 ^ N.of_nat 0) with 1.
    rewrite N.mod_1_r. lia.
  - cbn [hex_digits hex_value]. rewrite hexval_hexdigit by apply nibble_lt.
    rewrite IH. f_equal. rewrite nibble_spec.
    rewrite Nat2N.inj_succ, N.pow_succ_r'.
    replace (2 ^ (4 * N.of_nat n)) with (16 ^ N.of_nat n)
      by (change 16 with (2 ^ 4); now rewrite <- N.pow_mul_r).
    rewrite (N.mul_comm 16 (16 ^ N.of_nat n)).
    rewrite (N.Div0.mod_mul_r ch (16 ^ N.of_nat n) 16). lia.
Qed.

Lemma hex_value_hex2 ch : ch < 256 -> hex_value 0 (hex2 ch) = Some ch.
Proof.
  intros H. change (hex2 ch) with (hex_digits 2 ch).
  rewrite hex_value_digits. f_equal. change (16 ^ N.of_nat 2) with 256.
  rewrite N.mod_small by exact H. reflexivity.
Qed.

Lemma hex_value_hex4 ch : ch < 65536 -> hex_value 0 (hex4 ch) = Some ch.
Proof.
  intros H. change (hex4 ch) with (hex_digits 4 ch).
  rewrite hex_value_digits. f_equal. change (16 ^ N.of_nat 4) with 65536.
  rewrite N.mod_small by exact H. reflexivity.
Qed.

Lemma hex_value_hex8 ch : ch < 4294967296 -> hex_value 0 (hex8 ch) = Some ch.
Proof.
  intros H. change (hex8 ch) with (hex_digits 8 ch).
  rewrite hex_value_digits. f_equal. change (16 ^ N.of_nat 8) with 4294967296.
  rewrite N.mod_small by exact H. reflexivity.
Qed.

Lemma hex_escape_ok digits ch tail :
  hex_value 0 digits = Some ch -> ch <= 1114111 ->
  hex_escape digits tail = emit ch tail.
Proof.
  intros H Hle. unfold hex_escape. rewrite H.
  now replace (ch <=? 1114111) with true by (symmetry; now apply N.leb_le).
Qed.

Lemma decode_body_plain q ch rest :
  ch <> q -> ch <> NL -> ch <> CR -> ch <> 0 -> ch <> BACKSLASH ->
  decode_body q (ch :: rest) = emit ch (decode_body q rest).
Proof.
  intros Hq Hn Hc H0 Hb. cbn [decode_body].
  apply N.eqb_neq in Hq, Hn, Hc, H0, Hb. now rewrite Hq, Hn, Hc, H0, Hb.
Qed.

Lemma decode_body_escape q e rest :
  q = SQ \/ q = DQ ->
  decode_body q (BACKSLASH :: e :: rest) =
  match simple_escape e with
  | Some v => emit v (decode_body q rest)
  | None => decode_body q (BACKSLASH :: e :: rest)
  end.
Proof.
  intros [-> | ->]; destruct (simple_escape e) eqn:E; try reflexivity;
    cbn [decode_body]; cbn; now rewrite E.
Qed.

Lemma decode_body_x q ch rest :
  q = SQ \/ q = DQ -> ch < 256 ->
  decode_body q (BACKSLASH :: 120 :: hex2 ch ++ rest) = emit ch (decode_body q rest).
Proof.
  intros [-> | ->] H; cbn;
    (rewrite (hex_escape_ok _ ch); [reflexivity | now apply hex_value_hex2 | lia]).
Qed.

Lemma decode_body_u q ch rest :
  q = SQ \/ q = DQ -> ch < 65536 ->
  decode_body q (BACKSLASH :: 117 :: hex4 ch ++ rest) = emit ch (decode_body q rest).
Proof.
  intros [-> | ->] H; cbn;
    (rewrite (hex_escape_ok _ ch); [reflexivity | now apply hex_value_hex4 | lia]).
Qed.

Lemma decode_body_U q ch rest :
  q = SQ \/ q = DQ -> ch <= 1114111 ->
  decode_body q (BACKSLASH :: 85 :: hex8 ch ++ rest) = emit ch (decode_body q rest).
Proof.
  intros [-> | ->] H; cbn;
    (rewrite (hex_escape_ok _ ch); [reflexivity | apply hex_value_hex8; lia | lia]).
Qed.

Section RoundTrip.

Variable isprintable : char -> bool.

(** What [repr_char] writes for a character evaluates to that character. *)
Lemma decode_repr_char q ch rest :
  q = SQ \/ q = DQ -> ch <= 1114111 ->
  decode_body q (repr_char isprintable q ch ++ rest) = emit ch (decode_body q rest).
Proof.
  intros Hq Hle. unfold repr_char.
  destruct (N.eqb_spec ch q) as [->|Hnq].
  { cbn [orb app]. rewrite decode_body_escape by assumption.
    now destruct Hq as [-> | ->]. }
  destruct (N.eqb_spec ch BACKSLASH) as [->|Hnb].
  { cbn [orb app]. now rewrite decode_body_escape by assumption. }
  cbn [orb].
  destruct (N.eqb_spec ch TAB) as [->|Hnt].
  { cbn [app]. now rewrite decode_body_escape by assumption. }
  destruct (N.eqb_spec ch NL) as [->|Hnn].
  { cbn [app]. now rewrite decode_body_escape by assumption. }
  destruct (N.eqb_spec ch CR) as [->|Hnc].
  { cbn [app]. now rewrite decode_body_escape by assumption. }
  destruct (N.ltb_spec ch 32) as [Hlt|Hge].
  { cbn [orb]. apply decode_body_x; [assumption | lia]. }
  destruct (N.eqb_spec ch 127) as [->|Hn127].
  { cbn [orb]. apply decode_body_x; [assumption | lia]. }
  cbn [orb].
  assert (Hplain : decode_body q ([ch] ++ rest) = emit ch (decode_body q rest)).
  { apply decode_body_plain; auto; unfold BACKSLASH in *; lia. }
  destruct (N.ltb_spec ch 127) as [Hlt|Hge'].
  { exact Hplain. }
  destruct (isprintable ch); cbn [negb]; [exact Hplain|].
  destruct (N.leb_spec ch 255).
  { apply decode_body_x; [assumption | lia]. }
  destruct (N.leb_spec ch 65535).
  { apply decode_body_u; [assumption | lia]. }
  now apply decode_body_U.
Qed.

Lemma decode_repr_body q s :
  q = SQ \/ q = DQ -> valid_str s ->
  decode_body q (flat_map (repr_char isprintable q) s ++ [q]) = Some s.
Proof.
  intros Hq Hs. induction Hs as [|ch s Hch Hs IH].
  - cbn. now rewrite N.eqb_refl.
  - cbn [flat_map]. rewrite <- app_assoc, decode_repr_char by assumption.
    now rewrite IH.
Qed.

Lemma repr_quote_cases s : repr_quote s = SQ \/ repr_quote s = DQ.
Proof. unfold repr_quote. destruct (_ && _); auto. Qed.

(** Evaluating the [repr] of a string gives the string back. *)
Lemma decode_repr s : valid_str s -> decode_literal (repr isprintable s) = Some s.
Proof.
  intros Hs. unfold repr, decode_literal. cbv zeta.
  destruct (repr_quote_cases s) as [E|E]; rewrite E; cbn [N.eqb orb Pos.eqb SQ DQ];
    now apply decode_repr_body; auto.
Qed.

End RoundTrip.

(** ** A backslash and n in the spelling *)

Lemma newline_content_cons c s :
  newline_content s = true -> newline_content (c :: s) = true.
Proof.
  unfold newline_content. rewrite !orb_true_iff. intros [H|H].
  - left. cbn [has_char existsb]. fold (has_char NL s). rewrite H. apply orb_true_r.
  - right. cbn [has_substr]. rewrite H. apply orb_true_r.
Qed.

Lemma has_substr_skip c rest :
  has_substr [BACKSLASH; 110] (c :: rest) = true -> c <> BACKSLASH ->
  has_substr [BACKSLASH; 110] rest = true.
Proof.
  cbn [has_substr starts_with]. intros H Hc.
  apply N.eqb_neq in Hc. rewrite N.eqb_sym in Hc. now rewrite Hc in H.
Qed.

Lemma has_substr_escape e rest :
  has_substr [BACKSLASH; 110] (BACKSLASH :: e :: rest) = true ->
  e = 110 \/ has_substr [BACKSLASH; 110] (e :: rest) = true.
Proof.
  intros H. change (has_substr [BACKSLASH; 110] (BACKSLASH :: e :: rest))
    with ((110 =? e) && true || has_substr [BACKSLASH; 110] (e :: rest)) in H.
  apply orb_true_iff in H. destruct H as [H|H]; [left | now right].
  rewrite andb_true_r in H. apply N.eqb_eq in H. now symmetry.
Qed.

Lemma hexval_not_backslash h v : hexval h = Some v -> h <> BACKSLASH.
Proof. intros H ->. discriminate H. Qed.

Lemma is_octal_not_backslash o : is_octal o = true -> o <> BACKSLASH.
Proof. intros H ->. discriminate H. Qed.

Lemma emit_Some c tail s :
  emit c tail = Some s -> exists s', tail = Some s' /\ s = c :: s'.
Proof. destruct tail as [s'|]; [|discriminate]. intros [= <-]. eauto. Qed.

Lemma hex_escape_Some digits tail s :
  hex_escape digits tail = Some s ->
  exists v s', hex_value 0 digits = Some v /\ tail = Some s' /\ s = v :: s'.
Proof.
  unfold hex_escape. destruct (hex_value 0 digits) as [v|]; [|discriminate].
  destruct (v <=? 1114111); [|discriminate].
  intros H. apply emit_Some in H. destruct H as (s' & -> & ->). eauto.
Qed.

Lemma hex_value_digits_ok digits : forall acc v,
  hex_value acc digits = Some v -> Forall (fun h => h <> BACKSLASH) digits.
Proof.
  induction digits as [|h t IH]; intros acc v H; [constructor|].
  cbn [hex_value] in H. destruct (hexval h) as [x|] eqn:E; [|discriminate].
  constructor; [now apply (hexval_not_backslash h x) | now apply (IH _ _ H)].
Qed.

Lemma has_substr_skip_all digits rest :
  Forall (fun h => h <> BACKSLASH) digits ->
  has_substr [BACKSLASH; 110] (digits ++ rest) = true ->
  has_substr [BACKSLASH; 110] rest = true.
Proof.
  induction 1 as [|h t Hh Ht IH]; intros H; [exact H|].
  apply IH. now apply (has_substr_skip h).
Qed.

Lemma simple_escape_backslash e v :
  simple_escape e = Some v ->
  (e = 110 -> v = NL) /\ (e = BACKSLASH -> v = BACKSLASH).
Proof.
  intros H. split; intros ->; now injection H as <-.
Qed.

Lemma decode_body_n q rest s :
  q = SQ \/ q = DQ ->
  decode_body q (110 :: rest) = Some s -> exists s', s = 110 :: s'.
Proof.
  intros [-> | ->] H; cbn in H; apply emit_Some in H;
    destruct H as (s' & _ & ->); eauto.
Qed.

Lemma has_substr_head rest :
  has_substr [BACKSLASH; 110] (BACKSLASH :: rest) = true ->
  (exists rest', rest = 110 :: rest') \/ has_substr [BACKSLASH; 110] rest = true.
Proof.
  cbn [has_substr starts_with]. rewrite N.eqb_refl. cbn [andb].
  destruct rest as [|e rest']; [now right|].
  destruct (N.eqb_spec 110 e) as [<-|_]; [left; eauto | now right].
Qed.

(** Where the spelling holds a backslash followed by n, either the pair is
    the newline escape, or its backslash is itself escaped and the value
    holds a backslash followed by n. *)
Lemma decode_body_backslash_n q :
  q = SQ \/ q = DQ ->
  forall n l s,
    (length l <= n)%nat ->
    decode_body q l = Some s ->
    has_substr [BACKSLASH; 110] l = true ->
    newline_content s = true.
Proof.
  intros Hq. induction n as [|n IH]; intros l s Hlen Hdec Hsub.
  { destruct l; [discriminate Hdec | cbn in Hlen; lia]. }
  destruct l as [|c rest]; [discriminate Hdec|].
  cbn [length] in Hlen.
  assert (IHrest : forall l' s', (length l' <= length rest)%nat ->
                     decode_body q l' = Some s' ->
                     has_substr [BACKSLASH; 110] l' = true ->
                     newline_content s' = true).
  { intros l' s' Hl. apply IH. lia. }
  clear IH. cbn [decode_body] in Hdec.
  destruct (c =? q) eqn:Ecq.
  { destruct rest; [|discriminate Hdec].
    apply N.eqb_eq in Ecq. subst c. exfalso.
    destruct Hq as [-> | ->]; discriminate Hsub. }
  destruct ((c =? NL) || (c =? CR) || (c =? 0)); [discriminate Hdec|].
  destruct (N.eqb_spec c BACKSLASH) as [->|Hcb]; cbn [negb] in Hdec.
  2:{ apply emit_Some in Hdec. destruct Hdec as (s' & Hs' & ->).
      apply newline_content_cons. apply (IHrest rest); auto.
      now apply (has_substr_skip c). }
  destruct rest as [|e rest1]; [discriminate Hdec|]. cbn [length] in IHrest.
  apply has_substr_escape in Hsub.
  destruct (simple_escape e) as [v|] eqn:Esimple.
  { apply emit_Some in Hdec. destruct Hdec as (s' & Hs' & ->).
    destruct (simple_escape_backslash _ _ Esimple) as (Hn & Hb).
    destruct Hsub as [->|Hsub]; [now rewrite Hn|].
    destruct (N.eqb_spec e BACKSLASH) as [->|Heb].
    - rewrite Hb by reflexivity.
      apply has_substr_head in Hsub. destruct Hsub as [(rest2 & ->)|Hsub].
      + destruct (decode_body_n _ _ _ Hq Hs') as (s2 & ->).
        unfold newline_content. apply orb_true_iff. right. reflexivity.
      + apply newline_content_cons. apply (IHrest rest1); auto.
    - apply newline_content_cons. apply (IHrest rest1); auto.
      now apply (has_substr_skip e). }
  assert (Hsub1 : has_substr [BACKSLASH; 110] rest1 = true).
  { destruct Hsub as [->|Hsub]; [discriminate Esimple|].
    apply (has_substr_skip e); [exact Hsub|]. intros ->. discriminate Esimple. }
  clear Hsub.
  destruct (e =? NL).
  { apply (IHrest rest1); auto. }
  destruct (e =? 120).
  { destruct rest1 as [|h1 [|h2 rest2]]; try discriminate Hdec.
    apply hex_escape_Some in Hdec. destruct Hdec as (v & s' & Hv & Hs' & ->).
    apply newline_content_cons. apply (IHrest rest2); [cbn; lia | exact Hs' |].
    apply (has_substr_skip_all [h1; h2]); [|exact Hsub1].
    now apply (hex_value_digits_ok _ _ _ Hv). }
  destruct (e =? 117).
  { destruct rest1 as [|h1 [|h2 [|h3 [|h4 rest2]]]]; try discriminate Hdec.
    apply hex_escape_Some in Hdec. destruct Hdec as (v & s' & Hv & Hs' & ->).
    apply newline_content_cons. apply (IHrest rest2); [cbn; lia | exact Hs' |].
    apply (has_substr_skip_all [h1; h2; h3; h4]); [|exact Hsub1].
    now apply (hex_value_digits_ok _ _ _ Hv). }
  destruct (e =? 85).
  { destruct rest1 as [|h1 [|h2 [|h3 [|h4 [|h5 [|h6 [|h7 [|h8 rest2]]]]]]]];
      try discriminate Hdec.
    apply hex_escape_Some in Hdec. destruct Hdec as (v & s' & Hv & Hs' & ->).
    apply newline_content_cons. apply (IHrest rest2); [cbn; lia | exact Hs' |].
    apply (has_substr_skip_all [h1; h2; h3; h4; h5; h6; h7; h8]); [|exact Hsub1].
    now apply (hex_value_digits_ok _ _ _ Hv). }
  destruct (e =? 78); [discriminate Hdec|].
  destruct (is_octal e).
  { destruct rest1 as [|o2 rest2]; [discriminate Hdec|].
    destruct (is_octal o2) eqn:Eo2.
    - pose proof (has_substr_skip _ _ Hsub1 (is_octal_not_backslash _ Eo2)) as Hsub2.
      destruct rest2 as [|o3 rest3]; [discriminate Hdec|].
      destruct (is_octal o3) eqn:Eo3.
      + apply emit_Some in Hdec. destruct Hdec as (s' & Hs' & ->).
        apply newline_content_cons. apply (IHrest rest3); [cbn; lia | exact Hs' |].
        now apply (has_substr_skip o3); [|apply is_octal_not_backslash].
      + apply emit_Some in Hdec. destruct Hdec as (s' & Hs' & ->).
        apply newline_content_cons. apply (IHrest (o3 :: rest3)); auto. cbn; lia.
    - apply emit_Some in Hdec. destruct Hdec as (s' & Hs' & ->).
      apply newline_content_cons. apply (IHrest (o2 :: rest2)); auto. }
  destruct ((e =? CR) || (e =? 0)); [discriminate Hdec|].
  apply emit_Some in Hdec. destruct Hdec as (s1 & Hs1 & ->).
  apply emit_Some in Hs1. destruct Hs1 as (s' & Hs' & ->).
  apply newline_content_cons, newline_content_cons. apply (IHrest rest1); auto.
Qed.

(** A single unprefixed literal whose spelling holds a backslash followed by
    n has a value that holds a newline or a backslash followed by n. *)
Lemma decode_literal_backslash_n spelling s :
  decode_literal spelling = Some s ->
  has_substr [BACKSLASH; 110] spelling = true ->
  newline_content s = true.
Proof.
  destruct spelling as [|q body]; [discriminate|]. cbn [decode_literal].
  destruct (N.eqb_spec q SQ) as [->|Hs]; [|destruct (N.eqb_spec q DQ) as [->|Hd]];
    cbn [orb]; try discriminate; intros Hdec Hsub.
  - apply (decode_body_backslash_n SQ (or_introl eq_refl) (length body) body);
      [lia | exact Hdec | now apply (has_substr_skip SQ)].
  - apply (decode_body_backslash_n DQ (or_intror eq_refl) (length body) body);
      [lia | exact Hdec | now apply (has_substr_skip DQ)].
Qed.

(** ** Claims on single literals *)

(** C1 (evaluation of the code at the input of the claim): on
    [z = 'hello'] the rewrite records the [repr] of the value, which is
    delimited by single quotes, so the text comes back as it was and is not
    the double-quoted spelling. *)
Theorem C1_hello_keeps_single_quotes :
  forall isprintable,
    rewrite isprintable hello_source hello_tree = hello_source /\
    rewrite isprintable hello_source hello_tree <> py "z = " ++ dquoted (py "hello").
Proof. intros p. split; [reflexivity | discriminate]. Qed.

(** C2 (as stated, refuted): an empty docstring spelled with two double
    quotes is left alone, and the literal whose value is the single quote
    is rewritten to a double-quoted spelling. *)
Lemma C2_counterexample :
  (forall isprintable,
     rewrite isprintable empty_doc_source empty_doc_tree = empty_doc_source) /\
  (forall isprintable,
     rewrite isprintable quote_source quote_tree = py "x = " ++ dquoted [SQ]).
Proof. split; intros p; reflexivity. Qed.

(** C2 (amended): for a literal that is not a docstring, the empty spelling
    in either quote style is replaced by two single quotes; and a literal
    whose spelling starts with a quote and whose value is one character
    other than the single quote is replaced by that character's escaped
    form between single quotes (['a'] for the letter a, ['\n'] for the
    newline). *)
Theorem C2_empty_and_single_character :
  forall isprintable self s r,
    let string := slice (source self) (fst r) (snd r) in
    value_of_spelling string s ->
    (is_empty_literal string = true ->
     rewrite_quotes_for_node isprintable self false s r =
     record_replacement self r (squoted [])) /\
    (forall c, s = [c] -> starts_with_quote string = true -> c <> SQ ->
     rewrite_quotes_for_node isprintable self false s r =
     record_replacement self r (squoted (repr_char isprintable SQ c))) /\
    repr isprintable [97] = squoted [97] /\
    repr isprintable [NL] = squoted [BACKSLASH; 110].
Proof.
  intros p self s r string Hv. repeat split.
  - intros He. unfold rewrite_quotes_for_node. fold string.
    rewrite (quoted_is_mapped _ _ (empty_literal_starts_with_quote _ He)).
    now rewrite He.
  - intros c -> Hq Hc. unfold rewrite_quotes_for_node. fold string.
    rewrite (quoted_is_mapped _ _ Hq), Hq.
    destruct (is_empty_literal string) eqn:He.
    + now pose proof (empty_literal_value _ _ He Hv).
    + cbn [length Nat.eqb]. f_equal.
      unfold repr, repr_quote, has_char, squoted. cbn [existsb flat_map].
      destruct (N.eqb_spec SQ c) as [E|_]; [now elim Hc|].
      cbn [orb andb]. now rewrite app_nil_r.
Qed.

Lemma C2_witness :
  rewrite_quotes_for_node isprintable_latin1
    (mkRewriter (py "y = " ++ dquoted (py "a")) []) false (py "a") (4, 7)%nat =
  mkRewriter (py "y = " ++ dquoted (py "a")) [((4, 7)%nat, squoted (py "a"))].
Proof.
  assert (Hv : value_of_spelling
                 (slice (py "y = " ++ dquoted (py "a")) 4 7) (py "a")).
  { intros s' H. vm_compute in H. now injection H as <-. }
  destruct (C2_empty_and_single_character isprintable_latin1
              (mkRewriter (py "y = " ++ dquoted (py "a")) []) (py "a") (4, 7)%nat Hv)
    as (_ & H & _).
  rewrite (H 97); [reflexivity | reflexivity | reflexivity | discriminate].
Defined.

(** C3 (as stated, refuted): a literal written with triple quotes on one
    line is rewritten, [hello] between triple double quotes becoming
    ['hello']; and so is one that runs over two lines when its value is a
    single character, here the newline. *)
Lemma C3_counterexample :
  (forall isprintable,
     rewrite isprintable triple_source triple_tree = py "x = 'hello'") /\
  py "x = 'hello'" <> triple_source /\
  (forall isprintable,
     rewrite isprintable triple_newline_source triple_newline_tree =
     py "x = " ++ squoted [BACKSLASH; 110]) /\
  py "x = " ++ squoted [BACKSLASH; 110] <> triple_newline_source.
Proof. repeat split; try reflexivity; discriminate. Qed.

(** C3 (amended): a literal whose spelling holds a newline character (it
    runs over more than one line) and whose value is not exactly one
    character gets no edit, whatever its content, its length or its
    docstring mark. *)
Theorem C3_multiline_spelling_unchanged :
  forall isprintable self d s r,
    has_char NL (slice (source self) (fst r) (snd r)) = true ->
    length s <> 1%nat ->
    rewrite_quotes_for_node isprintable self d s r = self.
Proof.
  intros p self d s r Hn Hl. unfold rewrite_quotes_for_node.
  destruct (range_eqb r (O, O)); [reflexivity|].
  destruct d; [reflexivity|].
  destruct (is_empty_literal _) eqn:He.
  - apply is_empty_literal_spec in He. destruct He as [E|E];
      rewrite E in Hn; discriminate Hn.
  - destruct (starts_with_quote _); [|reflexivity]. cbn [negb].
    apply Nat.eqb_neq in Hl. now rewrite Hl, Hn.
Qed.

Lemma C3_witness :
  rewrite_quotes_for_node isprintable_latin1
    (mkRewriter multiline_source []) false [97; NL; 98] (4, 13)%nat =
  mkRewriter multiline_source [].
Proof.
  apply (C3_multiline_spelling_unchanged isprintable_latin1
           (mkRewriter multiline_source []) false [97; NL; 98] (4, 13)%nat).
  - reflexivity.
  - simpl; lia.
Defined.

(** C4 (as stated, refuted): the literal spelled with a backslash and n
    between double quotes has the newline as its value, and it is rewritten
    to single quotes. *)
Lemma C4_counterexample :
  has_char NL [NL] = true /\
  has_substr [BACKSLASH; 110] (slice newline_source 4 8) = true /\
  (forall isprintable,
     rewrite isprintable newline_source newline_tree =
     py "x = " ++ squoted [BACKSLASH; 110]) /\
  py "x = " ++ squoted [BACKSLASH; 110] <> newline_source.
Proof. repeat split; try reflexivity. discriminate. Qed.

(** C4 (amended): a literal whose value is not exactly one character gets
    no edit when the value holds a newline character or a backslash
    followed by the letter n, and also when it is a single unprefixed
    literal whose spelling holds a backslash followed by n. *)
Theorem C4_newline_content_unchanged :
  forall isprintable self d s r,
    let string := slice (source self) (fst r) (snd r) in
    value_of_spelling string s ->
    length s <> 1%nat ->
    has_char NL s = true \/
    has_substr [BACKSLASH; 110] s = true \/
    (decode_literal string = Some s /\
     has_substr [BACKSLASH; 110] string = true) ->
    rewrite_quotes_for_node isprintable self d s r = self.
Proof.
  intros p self d s r string Hv Hl Hs.
  assert (Hc : has_char NL s || has_substr [BACKSLASH; 110] s = true).
  { destruct Hs as [Hs|[Hs|(Hdec & Hs)]].
    - now rewrite Hs.
    - rewrite Hs. apply orb_true_r.
    - exact (decode_literal_backslash_n _ _ Hdec Hs). }
  unfold rewrite_quotes_for_node. fold string.
  destruct (range_eqb r (O, O)); [reflexivity|].
  destruct d; [reflexivity|].
  destruct (is_empty_literal string) eqn:He.
  - rewrite (empty_literal_value _ _ He Hv) in Hc. discriminate Hc.
  - destruct (starts_with_quote string); [|reflexivity]. cbn [negb].
    apply Nat.eqb_neq in Hl. rewrite Hl, Hc.
    now destruct (has_char NL string).
Qed.

Lemma C4_witness :
  rewrite_quotes_for_node isprintable_latin1
    (mkRewriter escaped_newline_source []) false [97; NL; 98] (4, 10)%nat =
  mkRewriter escaped_newline_source [].
Proof.
  apply (C4_newline_content_unchanged isprintable_latin1
           (mkRewriter escaped_newline_source []) false [97; NL; 98] (4, 10)%nat).
  - intros s' H. vm_compute in H. now injection H as <-.
  - simpl; lia.
  - right; right. split; reflexivity.
Defined.

(** C5: in a class, function or async function whose body starts with an
    expression statement holding a string literal, the marking step puts the
    docstring mark on that literal before the body is walked, the visit of
    a marked literal records nothing, and so the definition records exactly
    what its other children record. *)
Theorem C5_docstring_never_rewritten :
  forall isprintable self d k before d1 d2 s r rest after,
    let body := Expr d1 (Constant d2 (VStr s) r) :: rest in
    mark_docstring body = Expr d1 (Constant true (VStr s) r) :: rest /\
    rewrite_quotes_for_node isprintable self true s r = self /\
    visit isprintable (Definition_ d k before body after) self =
    visit_all isprintable after
      (visit_all isprintable rest (visit_all isprintable before self)).
Proof.
  intros p self d k before d1 d2 s r rest after body.
  assert (Hdoc : forall st, rewrite_quotes_for_node p st true s r = st).
  { intros st. unfold rewrite_quotes_for_node.
    now destruct (range_eqb r (O, O)). }
  repeat split; [apply Hdoc|].
  rewrite visit_Definition, !visit_all_app. f_equal.
  unfold body. cbn [mark_docstring set_is_docstring].
  rewrite visit_all_cons, visit_Expr, visit_Constant_str. now rewrite Hdoc.
Qed.

(** C9: a module does not mark its first statement.  A string literal that
    is the first statement of a module is handed to the decision with the
    mark the parser left (none), and when it is eligible its [repr] is
    recorded like for any other literal. *)
Theorem C9_module_docstring_rewritten :
  forall isprintable self d d1 s r rest,
    visit isprintable (Module d (Expr d1 (Constant false (VStr s) r) :: rest)) self =
    visit_all isprintable rest (rewrite_quotes_for_node isprintable self false s r) /\
    (eligible (slice (source self) (fst r) (snd r)) s = true ->
     visit isprintable (Module d (Expr d1 (Constant false (VStr s) r) :: rest)) self =
     visit_all isprintable rest (record_replacement self r (repr isprintable s))).
Proof.
  intros p self d d1 s r rest.
  assert (H : visit p (Module d (Expr d1 (Constant false (VStr s) r) :: rest)) self =
              visit_all p rest (rewrite_quotes_for_node p self false s r)).
  { now rewrite visit_Module, visit_all_cons, visit_Expr, visit_Constant_str. }
  split; [exact H|]. intros He. rewrite H. now rewrite eligible_recorded.
Qed.

Lemma C9_witness :
  visit isprintable_latin1 module_doc_tree (mkRewriter module_doc_source []) =
  mkRewriter module_doc_source [((0, 14)%nat, squoted (py "Module docs."))].
Proof.
  unfold module_doc_tree.
  rewrite (proj2 (C9_module_docstring_rewritten isprintable_latin1
                    (mkRewriter module_doc_source []) false false
                    (py "Module docs.") (0, 14)%nat _)).
  - reflexivity.
  - reflexivity.
Defined.

(** C6: when [rewrite_quotes_for_node] records a replacement for a literal
    whose value is the value of its spelling, the recorded text evaluates,
    as a string literal, to that same value. *)
Theorem C6_value_preserved :
  forall isprintable self d s r range new_source,
    valid_str s ->
    value_of_spelling (slice (source self) (fst r) (snd r)) s ->
    replacements (rewrite_quotes_for_node isprintable self d s r) =
      replacements self ++ [(range, new_source)] ->
    decode_literal new_source = Some s.
Proof.
  intros p self d s r range new Hs Hv.
  assert (Hno : replacements self = replacements self ++ [(range, new)] ->
                decode_literal new = Some s).
  { intros H. apply (f_equal (@length _)) in H.
    rewrite length_app in H. simpl in H. lia. }
  assert (Hrepr : replacements (record_replacement self r (repr p s)) =
                  replacements self ++ [(range, new)] ->
                  decode_literal new = Some s).
  { cbn [record_replacement replacements]. intros H.
    apply app_inv_head in H. injection H as _ <-. now apply decode_repr. }
  unfold rewrite_quotes_for_node.
  destruct (range_eqb r (O, O)); [exact Hno|].
  destruct d; [exact Hno|].
  destruct (is_empty_literal _) eqn:He.
  { cbn [record_replacement replacements]. intros H.
    apply app_inv_head in H. injection H as _ <-.
    now rewrite (empty_literal_value _ _ He Hv). }
  destruct (starts_with_quote _); [|exact Hno]. cbn [negb].
  destruct (Nat.eqb (length s) 1); [exact Hrepr|].
  destruct (has_char NL (slice _ _ _)); [exact Hno|].
  destruct (has_char NL s || has_substr [BACKSLASH; 110] s); [exact Hno|].
  exact Hrepr.
Qed.

Lemma C6_witness : decode_literal (dquoted (py "it's")) = Some (py "it's").
Proof.
  apply (C6_value_preserved isprintable_latin1 (mkRewriter its_source [])
           false (py "it's") (4, 10)%nat (4, 10)%nat (dquoted (py "it's"))).
  - repeat constructor; vm_compute; discriminate.
  - intros s' H. vm_compute in H. now injection H as <-.
  - reflexivity.
Defined.

(** * The splice and the second pass *)

Local Open Scope nat_scope.

(** ** Slices *)

Lemma slice_app_l (x y : str) i j :
  j <= length x -> slice (x ++ y) i j = slice x i j.
Proof.
  intros H. unfold slice. rewrite skipn_app, firstn_app, length_skipn.
  replace (j - i - (length x - i)) with 0 by lia.
  now rewrite firstn_O, app_nil_r.
Qed.

Lemma slice_app_r (x y : str) i j :
  slice (x ++ y) (length x + i) (length x + j) = slice y i j.
Proof.
  unfold slice. rewrite skipn_app, skipn_all2 by lia.
  cbn [app]. f_equal; [lia | f_equal; lia].
Qed.


Lemma slice_length (s : str) i j :
  i <= j <= length s -> length (slice s i j) = j - i.
Proof. intros H. unfold slice. rewrite length_firstn, length_skipn. lia. Qed.

Lemma slice_full_prefix (s : str) i j :
  i <= j -> firstn j s = firstn i s ++ slice s i j.
Proof.
  intros H. unfold slice.
  rewrite <- (firstn_skipn i (firstn j s)) at 1.
  rewrite firstn_firstn, skipn_firstn_comm. now rewrite Nat.min_l by lia.
Qed.

Lemma slice_nonempty (s : str) i j : slice s i j <> [] -> i < j /\ i < length s.
Proof.
  unfold slice. intros H. split.
  - destruct (j - i) eqn:E; [now elim H | lia].
  - destruct (Nat.lt_ge_cases i (length s)) as [|Hge]; [assumption|].
    rewrite skipn_all2, firstn_nil in H by assumption. now elim H.
Qed.

(** Splicing a span with the text it holds changes nothing. *)
Lemma splice_same (s : str) a b :
  a <= b -> splice s ((a, b), slice s a b) = s.
Proof.
  intros H. unfold splice. rewrite app_assoc, <- slice_full_prefix by assumption.
  apply firstn_skipn.
Qed.

(** ** The order of application *)

Lemma range_leb_spec r1 r2 :
  range_leb r1 r2 = true <->
  fst r1 < fst r2 \/ (fst r1 = fst r2 /\ snd r1 <= snd r2).
Proof.
  unfold range_leb.
  rewrite orb_true_iff, andb_true_iff, Nat.ltb_lt, Nat.eqb_eq, Nat.leb_le.
  reflexivity.
Qed.

Lemma range_leb_total r1 r2 : range_leb r1 r2 = false -> range_leb r2 r1 = true.
Proof.
  intros H. apply range_leb_spec.
  destruct (range_leb r2 r1) eqn:E; [now apply range_leb_spec in E|].
  assert (H1 : ~ range_leb r1 r2 = true) by congruence.
  rewrite range_leb_spec in H1. lia.
Qed.

Lemma range_leb_trans r1 r2 r3 :
  range_leb r1 r2 = true -> range_leb r2 r3 = true -> range_leb r1 r3 = true.
Proof. rewrite !range_leb_spec. lia. Qed.

Lemma insert_desc_perm x l : Permutation (x :: l) (insert_desc x l).
Proof.
  induction l as [|y l IH]; cbn [insert_desc]; [reflexivity|].
  destruct (range_leb (fst y) (fst x)); [reflexivity|].
  rewrite perm_swap. now apply perm_skip.
Qed.

Lemma sorted_desc_perm l : Permutation l (sorted_desc l).
Proof.
  induction l as [|x l IH]; cbn [sorted_desc fold_right]; [reflexivity|].
  rewrite <- insert_desc_perm. now apply perm_skip.
Qed.

Lemma insert_desc_sorted x l : descending l -> descending (insert_desc x l).
Proof.
  unfold descending. induction 1 as [|y l Hl IH Hy]; cbn [insert_desc].
  - repeat constructor.
  - destruct (range_leb (fst y) (fst x)) eqn:E.
    + constructor; [now constructor|]. constructor; [exact E|].
      rewrite Forall_forall in Hy |- *. intros z Hz.
      eapply range_leb_trans; [apply Hy, Hz | exact E].
    + constructor; [exact IH|].
      apply (Permutation_Forall (insert_desc_perm x l)).
      constructor; [now apply range_leb_total | exact Hy].
Qed.

Lemma sorted_desc_sorted l : descending (sorted_desc l).
Proof.
  induction l as [|x l IH]; cbn [sorted_desc fold_right].
  - constructor.
  - now apply insert_desc_sorted.
Qed.

Lemma StronglySorted_snoc {A} (R : A -> A -> Prop) l x :
  StronglySorted R l -> Forall (fun y => R y x) l -> StronglySorted R (l ++ [x]).
Proof.
  induction 1 as [|y l Hl IH Hy]; intros HF; cbn [app].
  - repeat constructor.
  - inversion HF; subst. constructor; [now apply IH|].
    apply Forall_app. split; [exact Hy | now repeat constructor].
Qed.

Lemma descending_rev l : descending l -> ascending_order (rev l).
Proof.
  unfold descending, ascending_order. induction 1 as [|x l Hl IH Hx]; cbn [rev].
  - constructor.
  - apply StronglySorted_snoc; [exact IH | now apply Forall_rev].
Qed.

Lemma ascending_perm l : Permutation l (ascending l).
Proof.
  unfold ascending. rewrite <- Permutation_rev. apply sorted_desc_perm.
Qed.

Lemma ascending_sorted l : ascending_order (ascending l).
Proof. apply descending_rev, sorted_desc_sorted. Qed.

Lemma chained_le pos l len : chained pos l len -> pos <= len.
Proof.
  revert pos. induction l as [|[[a b] n] l IH]; intros pos; cbn [chained].
  - auto.
  - intros (H1 & H2 & H3). apply IH in H3. lia.
Qed.

(** Sorted spans that do not overlap form a chain. *)
Lemma ascending_chained len l : forall pos,
  ascending_order l ->
  non_overlapping len (map fst l) ->
  (forall e, In e l -> pos <= fst (fst e)) ->
  pos <= len ->
  chained pos l len.
Proof.
  induction l as [|[[a b] n] l IH]; intros pos Hs (Hnd & Hin & Hap) Hpos Hle;
    cbn [chained]; [exact Hle|].
  cbn [map fst] in Hnd, Hin, Hap.
  inversion Hs as [|? ? Hs' Hhd]; subst.
  inversion Hnd as [|? ? Hnotin Hnd']; subst.
  inversion Hin as [|? ? Hab Hin']; subst.
  unfold in_text in Hab; cbn [fst snd] in Hab.
  split; [apply (Hpos ((a, b), n)); now left|].
  split; [lia|].
  apply IH; try assumption.
  - repeat split; try assumption.
    intros r1 r2 H1 H2. apply Hap; now right.
  - intros e He.
    assert (He' : In (fst e) (map fst l)) by now apply in_map.
    rewrite Forall_forall in Hhd. specialize (Hhd e He). cbn [fst] in Hhd.
    apply range_leb_spec in Hhd. cbn [fst snd] in Hhd.
    rewrite Forall_forall in Hin'. specialize (Hin' _ He').
    unfold in_text in Hin'.
    destruct (Hap (a, b) (fst e)) as [E|[E|E]]; [now left | now right | | | ];
      cbn [fst snd] in E.
    + rewrite <- E in He'. contradiction.
    + exact E.
    + lia.
  - lia.
Qed.

(** Splicing the edits of a chain from the last to the first. *)
Lemma interleave_splice src l : forall pos,
  chained pos l (length src) ->
  fold_right (fun e text => splice text e) src l =
  firstn pos src ++ interleave src pos l.
Proof.
  induction l as [|[[a b] n] l IH]; intros pos; cbn [chained fold_right interleave].
  - intros _. now rewrite firstn_skipn.
  - intros (H1 & H2 & H3). rewrite (IH b H3).
    pose proof (chained_le _ _ _ H3) as Hb.
    unfold splice.
    rewrite firstn_app, firstn_firstn, length_firstn.
    replace (a - Nat.min b (length src)) with 0 by lia.
    rewrite firstn_O, app_nil_r, Nat.min_l by lia.
    rewrite skipn_app, length_firstn, skipn_all2 by (rewrite length_firstn; lia).
    replace (b - Nat.min b (length src)) with 0 by lia.
    cbn [skipn app].
    rewrite (slice_full_prefix src pos a) by lia. now rewrite <- app_assoc.
Qed.

(** The loop of [rewrite] on edits that do not overlap. *)
Lemma apply_replacements_interleave src l :
  non_overlapping (length src) (map fst l) ->
  apply_replacements src l = interleave src 0 (ascending l) /\
  chained 0 (ascending l) (length src).
Proof.
  intros H.
  assert (Hc : chained 0 (ascending l) (length src)).
  { apply ascending_chained; [apply ascending_sorted| | intros; lia | lia].
    destruct H as (Hnd & Hin & Hap).
    pose proof (Permutation_map fst (ascending_perm l)) as Hp.
    repeat split.
    - now apply (Permutation_NoDup Hp).
    - now apply (Permutation_Forall Hp).
    - intros r1 r2 H1 H2.
      apply Hap; apply (Permutation_in _ (Permutation_sym Hp)); assumption. }
  split; [|exact Hc].
  unfold apply_replacements.
  rewrite <- (rev_involutive (sorted_desc l)), <- fold_left_rev_right, rev_involutive.
  fold (ascending l). now rewrite (interleave_splice _ _ 0 Hc).
Qed.

(** ** The calls of a traversal *)

(** Induction on a tree, with the property at hand for every child. *)
Section NodeInduction.

Variable P : Node -> Prop.
Hypothesis P_Constant : forall d v r, P (Constant d v r).
Hypothesis P_Expr : forall d v, P v -> P (Expr d v).
Hypothesis P_Definition : forall d k b1 b2 b3,
  Forall P b1 -> Forall P b2 -> Forall P b3 -> P (Definition_ d k b1 b2 b3).
Hypothesis P_Module : forall d b, Forall P b -> P (Module d b).
Hypothesis P_Other : forall d ch, Forall P ch -> P (Other d ch).

Fixpoint Node_induction (n : Node) : P n :=
  let all := fix all (l : list Node) : Forall P l :=
    match l with
    | [] => Forall_nil P
    | x :: l' => Forall_cons x (Node_induction x) (all l')
    end in
  match n with
  | Constant d v r => P_Constant d v r
  | Expr d v => P_Expr d v (Node_induction v)
  | Definition_ d k b1 b2 b3 => P_Definition d k b1 b2 b3 (all b1) (all b2) (all b3)
  | Module d b => P_Module d b (all b)
  | Other d ch => P_Other d ch (all ch)
  end.

End NodeInduction.

Section Literals.

Variable isprintable : char -> bool.

Local Abbreviation visit := (visit isprintable).
Local Abbreviation visit_all := (visit_all isprintable).
Local Abbreviation rewrite_quotes_for_node := (rewrite_quotes_for_node isprintable).

(** The mark is read on string constants only. *)
Lemma visit_set_is_docstring v self :
  (forall d s r, v <> Constant d (VStr s) r) ->
  visit (set_is_docstring v) self = visit v self.
Proof.
  intros H. destruct v as [d [s|] r| | | |]; cbn [set_is_docstring].
  - now elim (H d s r).
  - now simp visit.
  - now rewrite !visit_Expr.
  - now rewrite !visit_Definition.
  - now rewrite !visit_Module.
  - now rewrite !visit_Other.
Qed.

Lemma visit_all_literals l :
  Forall (fun n => forall self, visit n self = fold_left (call isprintable) (literals n) self) l ->
  forall self, visit_all l self = fold_left (call isprintable) (flat_map literals l) self.
Proof.
  induction 1 as [|x l Hx Hl IH]; intros self; [reflexivity|].
  rewrite visit_all_cons, IH, Hx. cbn [flat_map]. now rewrite fold_left_app.
Qed.

(** The visit of a tree makes the calls of [literals], in that order. *)
Lemma visit_literals n :
  forall self, visit n self = fold_left (call isprintable) (literals n) self.
Proof.
  induction n as [d [s|] r|d v IH|d k b1 b2 b3 IH1 IH2 IH3|d b IH|d ch IH]
    using Node_induction; intros self.
  - now rewrite visit_Constant_str.
  - now simp visit.
  - now rewrite visit_Expr, IH.
  - rewrite visit_Definition, !visit_all_app. cbn [literals].
    rewrite !fold_left_app, <- (visit_all_literals _ IH1), <- (visit_all_literals _ IH3).
    f_equal. generalize (visit_all b1 self). intros st.
    destruct IH2 as [|x rest Hx Hrest]; [reflexivity|].
    destruct x as [d0 v0 r0|d0 v0|d0 k0 a0 a1 a2|d0 a0|d0 a0];
      try (cbn [mark_docstring]; now apply visit_all_literals; constructor).
    cbn [mark_docstring]. rewrite visit_all_cons, visit_Expr.
    destruct v0 as [d1 [s1|] r1|d1 v1|d1 k1 c1 c2 c3|d1 c1|d1 c1];
      try (rewrite visit_set_is_docstring by discriminate;
           rewrite <- visit_Expr with (d := d0), Hx, (visit_all_literals _ Hrest);
           cbn [flat_map]; now rewrite fold_left_app).
    cbn [set_is_docstring]. rewrite visit_Constant_str.
    now rewrite (visit_all_literals _ Hrest).
  - rewrite visit_Module. now apply visit_all_literals.
  - rewrite visit_Other. now apply visit_all_literals.
Qed.

End Literals.

(** ** What one call records *)

Section Recorded.

Variable isprintable : char -> bool.

(** A call appends what [recorded] lists and leaves the source alone. *)
Lemma call_recorded self x :
  call isprintable self x =
  mkRewriter (source self) (replacements self ++ recorded isprintable (source self) x).
Proof.
  destruct x as [[d s] r], self as [src reps].
  unfold call, recorded, decision, rewrite_quotes_for_node, record_replacement.
  cbn [source replacements].
  repeat match goal with
         | |- context [if ?c then _ else _] => destruct c
         end; now rewrite ?app_nil_r.
Qed.

Lemma calls_recorded lits : forall self,
  fold_left (call isprintable) lits self =
  mkRewriter (source self)
             (replacements self ++ flat_map (recorded isprintable (source self)) lits).
Proof.
  induction lits as [|x lits IH]; intros self; cbn [fold_left flat_map].
  - rewrite app_nil_r. now destruct self.
  - rewrite IH, call_recorded. cbn [source replacements]. now rewrite app_assoc.
Qed.

Lemma visit_edits src tree :
  visit isprintable tree (mkRewriter src []) = mkRewriter src (edits isprintable src tree).
Proof. now rewrite visit_literals, calls_recorded. Qed.

Lemma rewrite_edits src tree :
  rewrite isprintable src tree = apply_replacements src (edits isprintable src tree).
Proof. unfold rewrite. now rewrite visit_edits. Qed.

Lemma repr_char_nonempty q c : repr_char isprintable q c <> [].
Proof.
  unfold repr_char.
  repeat match goal with
         | |- context [if ?c then _ else _] => destruct c
         end; discriminate.
Qed.

Lemma repr_starts_with_quote s : starts_with_quote (repr isprintable s) = true.
Proof.
  unfold repr. cbv zeta. cbn [starts_with_quote].
  now destruct (repr_quote_cases s) as [-> | ->].
Qed.

Lemma repr_empty_literal s : is_empty_literal (repr isprintable s) = true -> repr isprintable s = [SQ; SQ].
Proof.
  intros H. apply is_empty_literal_spec in H.
  destruct s as [|c s]; [reflexivity|].
  exfalso. unfold repr in H. cbv zeta in H. cbn [flat_map] in H.
  pose proof (repr_char_nonempty (repr_quote (c :: s)) c) as Hc.
  destruct (repr_char isprintable (repr_quote (c :: s)) c) as [|x xs];
    [now elim Hc|].
  destruct H as [H|H]; apply (f_equal (@length _)) in H;
    cbn [length app] in H; rewrite !length_app in H; cbn [length] in H; lia.
Qed.

Lemma decision_repr s :
  decision isprintable false (repr isprintable s) s = None \/
  decision isprintable false (repr isprintable s) s = Some (repr isprintable s).
Proof.
  unfold decision. destruct (is_empty_literal (repr isprintable s)) eqn:He.
  - right. now rewrite (repr_empty_literal _ He).
  - rewrite repr_starts_with_quote. cbn [negb].
    repeat match goal with
           | |- context [if ?c then _ else _] => destruct c
           end; auto.
Qed.


Lemma decision_nonempty d string s new_source :
  decision isprintable d string s = Some new_source -> new_source <> [].
Proof.
  unfold decision, repr.
  repeat match goal with
         | |- context [if ?c then _ else _] => destruct c
         end; intros [= <-]; discriminate.
Qed.

End Recorded.

(** ** Where the text of the source lies in the output *)

Lemma offset_at_pos pos l len : chained pos l len -> offset pos l pos = 0.
Proof.
  destruct l as [|[[a b] n] l]; cbn [chained offset]; [lia|].
  intros (H & _). apply Nat.leb_le in H. rewrite H. lia.
Qed.

Lemma chained_in pos l len e :
  chained pos l len -> In e l -> pos <= fst (fst e) /\ fst (fst e) < snd (fst e) <= len.
Proof.
  revert pos. induction l as [|[[a b] n] l IH]; intros pos; cbn [chained In];
    [tauto|].
  intros (H1 & H2 & H3) [<-|He].
  - cbn [fst snd]. apply chained_le in H3. lia.
  - specialize (IH _ H3 He). lia.
Qed.

Lemma slice_whole (s : str) : slice s 0 (length s) = s.
Proof. unfold slice. rewrite Nat.sub_0_r. cbn [skipn]. apply firstn_all. Qed.


(** An edit lies in the output where its span was moved to. *)
Lemma interleave_edit src l : forall pos e,
  chained pos l (length src) -> In e l ->
  slice (interleave src pos l)
        (offset pos l (fst (fst e))) (offset pos l (snd (fst e))) = snd e.
Proof.
  induction l as [|[[a1 b1] n1] l IH]; intros pos e Hc He; [destruct He|].
  cbn [chained] in Hc. destruct Hc as (H1 & H2 & H3).
  pose proof (chained_le _ _ _ H3) as Hb1.
  assert (Hg : length (slice src pos a1) = a1 - pos) by (apply slice_length; lia).
  cbn [interleave offset]. destruct He as [<-|He].
  - cbn [fst snd]. rewrite Nat.leb_refl.
    replace (b1 <=? a1) with false by (symmetry; apply Nat.leb_gt; lia).
    rewrite (offset_at_pos _ _ _ H3), Nat.add_0_r, <- Hg.
    rewrite <- (Nat.add_0_r (length (slice src pos a1))) at 1.
    rewrite slice_app_r, slice_app_l by lia. apply slice_whole.
  - destruct (chained_in _ _ _ _ H3 He) as (Ha & Hab).
    replace (fst (fst e) <=? a1) with false by (symmetry; apply Nat.leb_gt; lia).
    replace (snd (fst e) <=? a1) with false by (symmetry; apply Nat.leb_gt; lia).
    rewrite <- Hg, <- !Nat.add_assoc, slice_app_r, slice_app_r.
    now apply IH.
Qed.


(** ** The tree of the output *)



(** ** Rewriting the output again *)


Section SecondPass.

Variable isprintable : char -> bool.

Lemma recorded_in src d s r e :
  In e (recorded isprintable src (d, s, r)) ->
  mapped r = true /\ fst e = r /\
  decision isprintable d (slice src (fst r) (snd r)) s = Some (snd e).
Proof.
  unfold recorded, mapped. cbn beta iota.
  destruct (range_eqb r (0, 0)); [intros []|].
  destruct (decision _ _ _ _) as [n|]; [|intros []].
  intros [<-|[]]. auto.
Qed.


Lemma edits_span_mapped src lits r :
  In r (map fst (flat_map (recorded isprintable src) lits)) ->
  In r (filter mapped (map snd lits)).
Proof.
  rewrite in_map_iff. intros (e & <- & He).
  apply in_flat_map in He. destruct He as ([[d s] r] & Hx & He).
  apply recorded_in in He. destruct He as (Hm & -> & _).
  apply filter_In. split; [|exact Hm].
  change r with (snd (d, s, r)). now apply in_map.
Qed.

Lemma edits_NoDup src lits :
  NoDup (filter mapped (map snd lits)) ->
  NoDup (map fst (flat_map (recorded isprintable src) lits)).
Proof.
  induction lits as [|[[d s] r] lits IH]; intros Hnd; [constructor|].
  cbn [flat_map]. rewrite map_app. cbn [map filter snd] in Hnd.
  assert (Htail : NoDup (filter mapped (map snd lits))).
  { destruct (mapped r); [now inversion Hnd | exact Hnd]. }
  destruct (recorded isprintable src (d, s, r)) as [|e l] eqn:E;
    [now apply IH|].
  assert (He : In e (recorded isprintable src (d, s, r))) by (rewrite E; now left).
  apply recorded_in in He. destruct He as (Hm & He & _).
  assert (l = []) as ->.
  { revert E. unfold recorded. cbn beta iota.
    destruct (range_eqb r (0, 0)); [discriminate|].
    destruct (decision _ _ _ _); [|discriminate]. now intros [= _ <-]. }
  cbn [map app]. rewrite Hm in Hnd. inversion Hnd as [|? ? Hnotin _]; subst.
  constructor; [|now apply IH].
  intros Hin. apply Hnotin. now apply edits_span_mapped in Hin.
Qed.

(** The recorded spans are among the mapped spans of the tree. *)
Lemma edits_non_overlapping src tree len :
  non_overlapping len (mapped_spans tree) ->
  non_overlapping len (map fst (edits isprintable src tree)).
Proof.
  unfold mapped_spans, edits. intros (Hnd & Hin & Hap). repeat split.
  - now apply edits_NoDup.
  - rewrite Forall_forall in Hin |- *. intros r Hr.
    now apply Hin, (edits_span_mapped src).
  - intros r1 r2 H1 H2. apply Hap; now apply (edits_span_mapped src).
Qed.

Lemma splice_fixed text e : fixed text e -> splice text e = text.
Proof.
  destruct e as [[a b] n]. unfold fixed; cbn [fst snd]. intros (H & <-).
  now apply splice_same.
Qed.

Lemma apply_fixed text l :
  Forall (fixed text) l -> apply_replacements text l = text.
Proof.
  intros H. unfold apply_replacements.
  apply (Permutation_Forall (sorted_desc_perm l)) in H.
  induction H as [|e l' He Hl' IH]; [reflexivity|].
  cbn [fold_left]. now rewrite (splice_fixed _ _ He).
Qed.


End SecondPass.

(** ** Claims on the whole text *)

Lemma slice_middle (x y z : str) :
  slice (x ++ y ++ z) (length x) (length x + length y) = y.
Proof.
  rewrite <- (Nat.add_0_r (length x)) at 1.
  rewrite slice_app_r, slice_app_l by lia. apply slice_whole.
Qed.

Lemma eligible_decision isprintable string s :
  eligible string s = true ->
  decision isprintable false string s = Some (repr isprintable s).
Proof.
  unfold eligible, decision. rewrite !andb_true_iff, !negb_true_iff.
  intros [[[[Hq He] Hl] Hn] Hs]. now rewrite He, Hq, Hl, Hn, Hs.
Qed.

Ltac spans_do_not_overlap :=
  repeat split;
  [ repeat constructor; cbn [In]; intuition discriminate
  | repeat constructor; unfold in_text; cbn [fst snd length]; lia
  | cbn [In]; intros r1 r2 H1 H2;
    repeat match goal with
           | H : _ \/ _ |- _ => destruct H
           | H : False |- _ => destruct H
           end; subst;
    ((now left) || (right; unfold apart; cbn [fst snd]; lia)) ].

(** [visit] leaves the source of the rewriter alone, so the loop of
    [rewrite] starts from the text it was given. *)
Lemma rewrite_apply isprintable src tree :
  rewrite isprintable src tree =
  apply_replacements src
    (replacements (visit isprintable tree (mkRewriter src []))).
Proof. unfold rewrite. now rewrite visit_edits. Qed.



(** C8: when the recorded spans do not overlap, the output of [rewrite]
    is the source with each recorded span replaced by its new text and
    every stretch between, before and after the spans as it was and in its
    place.  The edits are spliced largest offset first; with no edit the
    source comes back. *)
Theorem C8_frame :
  forall isprintable src tree,
    let recorded_edits :=
      replacements (visit isprintable tree (mkRewriter src [])) in
    non_overlapping (length src) (map fst recorded_edits) ->
    rewrite isprintable src tree =
      fold_left splice (sorted_desc recorded_edits) src /\
    descending (sorted_desc recorded_edits) /\
    Permutation recorded_edits (ascending recorded_edits) /\
    chained 0 (ascending recorded_edits) (length src) /\
    rewrite isprintable src tree =
      interleave src 0 (ascending recorded_edits) /\
    (recorded_edits = [] -> rewrite isprintable src tree = src).
Proof.
  intros p src tree recorded_edits Hno.
  destruct (apply_replacements_interleave src recorded_edits Hno) as (H1 & H2).
  pose proof (rewrite_apply p src tree) as Hr. fold recorded_edits in Hr.
  repeat split.
  - exact Hr.
  - apply sorted_desc_sorted.
  - apply ascending_perm.
  - exact H2.
  - now rewrite Hr.
  - intros E. now rewrite Hr, E.
Qed.

Lemma C8_witness :
  rewrite isprintable_latin1 two_source two_tree =
  py "x = 'abcd'; y = 'hello'".
Proof.
  assert (H : non_overlapping (length two_source)
                (map fst (replacements
                            (visit isprintable_latin1 two_tree
                                   (mkRewriter two_source []))))).
  { change (map fst _) with [(4, 13); (19, 26)].
    change (length two_source) with 26. spans_do_not_overlap. }
  destruct (C8_frame isprintable_latin1 two_source two_tree H)
    as (_ & _ & _ & _ & E & _).
  rewrite E. reflexivity.
Defined.

(** The end of an edit's span is moved to the end of its new text. *)
Lemma offset_edit l : forall pos len e,
  chained pos l len -> In e l ->
  offset pos l (snd (fst e)) = offset pos l (fst (fst e)) + length (snd e).
Proof.
  induction l as [|[[a1 b1] n1] l IH]; intros pos len e Hc He; [destruct He|].
  cbn [chained] in Hc. destruct Hc as (H1 & H2 & H3).
  cbn [offset]. destruct He as [<-|He].
  - cbn [fst snd]. rewrite Nat.leb_refl.
    replace (b1 <=? a1) with false by (symmetry; apply Nat.leb_gt; lia).
    rewrite (offset_at_pos _ _ _ H3). lia.
  - destruct (chained_in _ _ _ _ H3 He) as (Ha & Hab).
    replace (fst (fst e) <=? a1) with false by (symmetry; apply Nat.leb_gt; lia).
    replace (snd (fst e) <=? a1) with false by (symmetry; apply Nat.leb_gt; lia).
    rewrite (IH _ _ _ H3 He). lia.
Qed.

(** C10: in any tree whose mapped literal spans do not overlap, a constant
    that is reached without a docstring mark, whose range covers several
    adjacent literal parts, blanks between them included, and which is
    eligible, has its whole range replaced by the [repr] of its value: the
    edit is recorded at that range, and in the output the span, moved by the
    edits before it, holds exactly that one literal, which evaluates to the
    combined value. *)
Theorem C10_concatenation_collapsed :
  forall isprintable src tree s r,
    let recorded_edits :=
      replacements (visit isprintable tree (mkRewriter src [])) in
    let moved_to := offset 0 (ascending recorded_edits) in
    let out := rewrite isprintable src tree in
    non_overlapping (length src) (mapped_spans tree) ->
    In (false, s, r) (literals tree) ->
    eligible (slice src (fst r) (snd r)) s = true ->
    valid_str s ->
    In (r, repr isprintable s) recorded_edits /\
    moved_to (snd r) = moved_to (fst r) + length (repr isprintable s) /\
    slice out (moved_to (fst r)) (moved_to (snd r)) = repr isprintable s /\
    out = firstn (moved_to (fst r)) out ++ repr isprintable s ++
          skipn (moved_to (snd r)) out /\
    decode_literal (repr isprintable s) = Some s.
Proof.
  intros p src tree s r recorded_edits moved_to out Hno Hin He Hs.
  assert (Hed : recorded_edits = edits p src tree).
  { unfold recorded_edits. now rewrite visit_edits. }
  assert (Hrec : In (r, repr p s) recorded_edits).
  { rewrite Hed. unfold edits. apply in_flat_map. exists (false, s, r).
    split; [exact Hin|]. cbn [recorded].
    assert (Hq : starts_with_quote (slice src (fst r) (snd r)) = true).
    { unfold eligible in He. rewrite !andb_true_iff in He. tauto. }
    rewrite (quoted_is_mapped src r Hq), (eligible_decision p _ _ He).
    now left. }
  assert (Hspans : non_overlapping (length src) (map fst recorded_edits)).
  { rewrite Hed. now apply edits_non_overlapping. }
  destruct (apply_replacements_interleave src recorded_edits Hspans)
    as (Hout & Hch).
  assert (Hout' : out = interleave src 0 (ascending recorded_edits)).
  { unfold out. rewrite rewrite_apply. exact Hout. }
  assert (Hasc : In (r, repr p s) (ascending recorded_edits)).
  { now apply (Permutation_in _ (ascending_perm recorded_edits)). }
  pose proof (offset_edit _ 0 _ _ Hch Hasc) as Hlen.
  pose proof (interleave_edit src _ 0 _ Hch Hasc) as Hslice.
  cbn [fst snd] in Hlen, Hslice. fold moved_to in Hlen, Hslice.
  rewrite <- Hout' in Hslice.
  repeat split; try assumption.
  - rewrite <- Hslice.
    rewrite app_assoc, <- slice_full_prefix by lia.
    symmetry. apply firstn_skipn.
  - now apply decode_repr.
Qed.

Lemma C10_witness :
  In ((4, 13), squoted (py "abcd"))
     (replacements (visit isprintable_latin1 two_tree (mkRewriter two_source []))) /\
  slice (rewrite isprintable_latin1 two_source two_tree) 4 10 =
  squoted (py "abcd").
Proof.
  assert (H : non_overlapping (length two_source) (mapped_spans two_tree)).
  { change (mapped_spans two_tree) with [(4, 13); (19, 26)].
    change (length two_source) with 26. spans_do_not_overlap. }
  destruct (C10_concatenation_collapsed isprintable_latin1 two_source two_tree
              (py "abcd") (4, 13) H) as (H1 & _ & H3 & _).
  - left. reflexivity.
  - reflexivity.
  - repeat constructor; vm_compute; discriminate.
  - split; [exact H1 | exact H3].
Defined.

(** * Further properties of the rewriter *)

(** ** Vocabulary *)

(** [x = r'\d+'], a raw literal: the value keeps the backslash. *)
Definition raw_source : str := py "x = r'\d+'".

(** [def f():] with the body [print(...)] of a double-quoted [hi]: the
    first statement is an expression statement, its value a call. *)
Definition call_source : str :=
  py "def f():" ++ [NL] ++ py "    print(" ++ dquoted (py "hi") ++ py ")".
Definition call_tree : Node :=
  Module false
    [Definition_ false FunctionDef [Other false []]
       [Expr false
          (Other false
             [Other false []; Constant false (VStr (py "hi")) (19, 23)])]
       []].

(** What the literal of a call is skipped for, before any rule that
    records: no range, a docstring mark, or a spelling that does not start
    with a quote. *)
Definition skipped (src : str) (x : literal) : Prop :=
  let '(d, s, r) := x in
  r = (0, 0) \/ d = true \/
  starts_with_quote (slice src (fst r) (snd r)) = false.

(** A literal that a run leaves as it is: skipped, or already spelled as two
    single quotes or as the [repr] of its value. *)
Definition canonical (isprintable : char -> bool) (src : str) (x : literal)
    : Prop :=
  skipped src x \/
  slice src (fst (snd x)) (snd (snd x)) = [SQ; SQ] \/
  slice src (fst (snd x)) (snd (snd x)) = repr isprintable (snd (fst x)).

(** The characters that the edits take out and the characters they put
    in. *)
Definition removed (l : list replacement) : nat :=
  fold_right (fun e acc => (snd (fst e) - fst (fst e)) + acc) 0 l.

Definition added (l : list replacement) : nat :=
  fold_right (fun e acc => length (snd e) + acc) 0 l.

(** ** One literal *)

(** X1: a literal whose spelling does not start with a quote (it carries a
    prefix: raw, formatted, unicode) gets no edit, whatever its mark, its
    value and its range. *)
Theorem prefixed_literal_unchanged :
  forall isprintable self d s r,
    starts_with_quote (slice (source self) (fst r) (snd r)) = false ->
    rewrite_quotes_for_node isprintable self d s r = self.
Proof.
  intros p self d s r Hq. unfold rewrite_quotes_for_node.
  destruct (range_eqb r (0, 0)); [reflexivity|].
  destruct d; [reflexivity|].
  destruct (is_empty_literal _) eqn:He.
  - apply empty_literal_starts_with_quote in He. congruence.
  - now rewrite Hq.
Qed.

Lemma prefixed_literal_unchanged_witness :
  rewrite_quotes_for_node isprintable_latin1 (mkRewriter raw_source [])
    false (py "\d+") (4, 10) =
  mkRewriter raw_source [].
Proof.
  apply (prefixed_literal_unchanged isprintable_latin1
           (mkRewriter raw_source []) false (py "\d+") (4, 10)).
  reflexivity.
Defined.

(** ** Definitions without a docstring *)

(** X2: the marking step of [visit_definition] changes the outcome only
    when the body starts with an expression statement whose value is a
    string constant.  With an empty body, a first statement of another
    kind, or an expression statement holding anything else (a call, say),
    the definition is walked like any other node, and the strings inside
    that first statement are rewritten. *)
Theorem definition_without_docstring :
  forall isprintable self d k before body after,
    (forall d1 d2 s r rest, body <> Expr d1 (Constant d2 (VStr s) r) :: rest) ->
    visit isprintable (Definition_ d k before body after) self =
    visit_all isprintable (before ++ body ++ after) self.
Proof.
  intros p self d k before body after Hbody.
  rewrite visit_Definition, !visit_all_app. f_equal.
  destruct body as [|stmt rest]; [reflexivity|].
  destruct stmt as [d0 v0 r0|d0 v0|d0 k0 a0 a1 a2|d0 a0|d0 a0]; try reflexivity.
  cbn [mark_docstring]. rewrite !visit_all_cons, !visit_Expr. f_equal.
  apply visit_set_is_docstring. intros d2 s r ->. now apply (Hbody d0 d2 s r rest).
Qed.

Lemma definition_without_docstring_witness :
  rewrite isprintable_latin1 call_source call_tree =
  py "def f():" ++ [NL] ++ py "    print('hi')".
Proof.
  unfold rewrite, call_tree.
  rewrite visit_Module, visit_all_cons.
  rewrite (definition_without_docstring isprintable_latin1); [reflexivity|].
  discriminate.
Defined.

(** ** The edit list *)

(** X3: a visit only appends to the edit list.  The source of the rewriter
    and the edits recorded before are kept, and what is appended does not
    depend on them: it is what the same visit records from an empty
    list. *)
Theorem visit_appends :
  forall isprintable tree self,
    visit isprintable tree self =
    mkRewriter (source self)
      (replacements self ++
       replacements (visit isprintable tree (mkRewriter (source self) []))).
Proof.
  intros p tree self.
  rewrite !visit_literals, !calls_recorded. reflexivity.
Qed.

(** What a recorded edit can be. *)
Lemma decision_Some_cases isprintable d string s new_source :
  decision isprintable d string s = Some new_source ->
  d = false /\ starts_with_quote string = true /\
  (new_source = [SQ; SQ] \/ new_source = repr isprintable s).
Proof.
  unfold decision. destruct d; [discriminate|].
  destruct (is_empty_literal string) eqn:He.
  { intros [= <-]. repeat split; [|now left].
    now apply empty_literal_starts_with_quote. }
  destruct (starts_with_quote string); [|discriminate]. cbn [negb].
  repeat match goal with
         | |- context [if ?c then _ else _] => destruct c
         end; try discriminate; intros [= <-]; auto.
Qed.

Lemma edit_cases isprintable src tree e :
  In e (replacements (visit isprintable tree (mkRewriter src []))) ->
  exists s,
    In (false, s, fst e) (literals tree) /\
    fst e <> (0, 0) /\
    starts_with_quote (slice src (fst (fst e)) (snd (fst e))) = true /\
    (snd e = [SQ; SQ] \/ snd e = repr isprintable s).
Proof.
  rewrite visit_edits. cbn [replacements]. unfold edits. intros He.
  apply in_flat_map in He. destruct He as ([[d s] r] & Hx & He).
  apply recorded_in in He. destruct He as (Hm & <- & Hd).
  apply decision_Some_cases in Hd. destruct Hd as (-> & Hq & Hnew).
  exists s. repeat split; try assumption.
  intros E. unfold mapped in Hm. rewrite E in Hm. discriminate Hm.
Qed.

Lemma recorded_length isprintable src x :
  length (recorded isprintable src x) <= 1.
Proof.
  destruct x as [[d s] r]. unfold recorded.
  destruct (range_eqb r (0, 0)); [cbn; lia|].
  destruct (decision _ _ _ _); cbn; lia.
Qed.

(** X4: every edit of a run belongs to a string constant of the tree that
    is reached without a docstring mark, has a range other than (0, 0) and a
    spelling that starts with a quote; the edit is recorded at the range of
    that constant and its text is two single quotes or the [repr] of the
    value.  There are at most as many edits as string constants. *)
Theorem recorded_edits_provenance :
  forall isprintable src tree,
    let recorded_edits :=
      replacements (visit isprintable tree (mkRewriter src [])) in
    length recorded_edits <= length (literals tree) /\
    forall e, In e recorded_edits ->
      exists s,
        In (false, s, fst e) (literals tree) /\
        fst e <> (0, 0) /\
        starts_with_quote (slice src (fst (fst e)) (snd (fst e))) = true /\
        (snd e = [SQ; SQ] \/ snd e = repr isprintable s).
Proof.
  intros p src tree recorded_edits. split; [|apply edit_cases].
  unfold recorded_edits. rewrite visit_edits. cbn [replacements]. unfold edits.
  induction (literals tree) as [|x l IH]; [reflexivity|].
  cbn [flat_map length]. rewrite length_app.
  pose proof (recorded_length p src x). lia.
Qed.

Lemma recorded_edits_provenance_witness :
  exists s,
    In (false, s, (4, 13)) (literals two_tree) /\
    (squoted (py "abcd") = [SQ; SQ] \/
     squoted (py "abcd") = repr isprintable_latin1 s).
Proof.
  destruct (proj2 (recorded_edits_provenance isprintable_latin1
                     two_source two_tree) ((4, 13), squoted (py "abcd")))
    as (s & H1 & _ & _ & H2).
  - left. reflexivity.
  - exists s. split; assumption.
Defined.

(** [repr] writes no line break. *)
Lemma hexdigit_not_newline d : hexdigit d <> NL.
Proof.
  unfold hexdigit, NL. destruct (d <? 10)%N; lia.
Qed.

Lemma repr_char_no_newline isprintable q ch :
  q = SQ \/ q = DQ -> has_char NL (repr_char isprintable q ch) = false.
Proof.
  intros Hq. unfold repr_char.
  assert (Hhex : forall d, (NL =? hexdigit d)%N = false).
  { intros d. apply N.eqb_neq. intros E. now apply (hexdigit_not_newline d). }
  destruct (N.eqb_spec ch q) as [->|Hnq].
  { destruct Hq as [-> | ->]; reflexivity. }
  destruct (N.eqb_spec ch BACKSLASH) as [->|Hnb]; [reflexivity|]. cbn [orb].
  destruct (N.eqb_spec ch TAB); [reflexivity|].
  destruct (N.eqb_spec ch NL) as [->|Hnn]; [reflexivity|].
  destruct (N.eqb_spec ch CR); [reflexivity|].
  assert (Hraw : has_char NL [ch] = false).
  { cbn [has_char existsb]. rewrite orb_false_r. apply N.eqb_neq. congruence. }
  assert (Hx : has_char NL (BACKSLASH :: 120%N :: hex2 ch) = false).
  { unfold hex2. cbn [has_char existsb]. now rewrite !Hhex. }
  destruct ((ch <? 32)%N || (ch =? 127)%N); [exact Hx|].
  destruct (ch <? 127)%N; [exact Hraw|].
  destruct (isprintable ch); cbn [negb]; [exact Hraw|].
  destruct (ch <=? 255)%N; [exact Hx|].
  destruct (ch <=? 65535)%N.
  - unfold hex4. cbn [has_char existsb]. now rewrite !Hhex.
  - unfold hex8. cbn [has_char existsb]. now rewrite !Hhex.
Qed.

Lemma repr_body_no_newline isprintable q s :
  q = SQ \/ q = DQ ->
  has_char NL (flat_map (repr_char isprintable q) s) = false.
Proof.
  intros Hq. induction s as [|c s IH]; [reflexivity|].
  change (flat_map (repr_char isprintable q) (c :: s))
    with (repr_char isprintable q c ++ flat_map (repr_char isprintable q) s).
  unfold has_char in *. rewrite existsb_app.
  apply orb_false_intro; [now apply repr_char_no_newline | exact IH].
Qed.

Lemma repr_no_newline isprintable s : has_char NL (repr isprintable s) = false.
Proof.
  unfold repr. cbv zeta.
  pose proof (repr_body_no_newline isprintable _ s (repr_quote_cases s)) as Hb.
  unfold has_char in *. cbn [existsb]. rewrite existsb_app. cbn [existsb].
  rewrite orb_false_r. apply orb_false_intro; [|apply orb_false_intro].
  - destruct (repr_quote_cases s) as [-> | ->]; reflexivity.
  - exact Hb.
  - destruct (repr_quote_cases s) as [-> | ->]; reflexivity.
Qed.

(** X5: the text of every recorded edit is a literal on one line: it
    starts with a quote, ends with the same quote and holds no newline
    character, so a run never adds a line to the text. *)
Theorem replacement_is_single_line :
  forall isprintable src tree e,
    In e (replacements (visit isprintable tree (mkRewriter src []))) ->
    has_char NL (snd e) = false /\
    exists q body, (q = SQ \/ q = DQ) /\ snd e = q :: body ++ [q].
Proof.
  intros p src tree e He.
  destruct (edit_cases p src tree e He) as (s & _ & _ & _ & [E|E]); rewrite E.
  - split; [reflexivity|]. exists SQ, []. split; [now left | reflexivity].
  - split; [apply repr_no_newline|].
    exists (repr_quote s), (flat_map (repr_char p (repr_quote s)) s).
    split; [apply repr_quote_cases | reflexivity].
Qed.

Lemma replacement_is_single_line_witness :
  has_char NL (squoted (py "hello")) = false.
Proof.
  apply (replacement_is_single_line isprintable_latin1 two_source two_tree
           ((19, 26), squoted (py "hello"))).
  right. left. reflexivity.
Defined.

Lemma recorded_skipped isprintable src x :
  skipped src x -> recorded isprintable src x = [].
Proof.
  destruct x as [[d s] r]. unfold skipped, recorded.
  destruct (range_eqb r (0, 0)) eqn:Er; [reflexivity|].
  intros [->|[->|Hq]]; [discriminate Er | reflexivity |].
  unfold decision. destruct d; [reflexivity|].
  destruct (is_empty_literal _) eqn:He.
  - apply empty_literal_starts_with_quote in He. congruence.
  - now rewrite Hq.
Qed.

(** X6: when every string constant of the tree is skipped before any rule
    that records (no range, docstring mark, or a spelling that does not
    start with a quote), the run records nothing and [rewrite] gives the
    source back. *)
Theorem nothing_to_rewrite :
  forall isprintable src tree,
    Forall (skipped src) (literals tree) ->
    replacements (visit isprintable tree (mkRewriter src [])) = [] /\
    rewrite isprintable src tree = src.
Proof.
  intros p src tree H.
  assert (E : edits p src tree = []).
  { unfold edits. induction H as [|x l Hx Hl IH]; [reflexivity|].
    cbn [flat_map]. now rewrite IH, (recorded_skipped p src x Hx). }
  split.
  - now rewrite visit_edits.
  - now rewrite rewrite_edits, E.
Qed.

(** [x = r'\d+'; y = ...] with a constant for which the span map has no
    range. *)
Definition skipped_tree : Node :=
  Module false
    [assign (Constant false (VStr (py "\d+")) (4, 10));
     assign (Constant false (VStr (py "part")) (0, 0))].

Lemma nothing_to_rewrite_witness :
  rewrite isprintable_latin1 raw_source skipped_tree = raw_source.
Proof.
  apply (nothing_to_rewrite isprintable_latin1 raw_source skipped_tree).
  change (literals skipped_tree)
    with [(false, py "\d+", (4, 10)); (false, py "part", (0, 0))].
  apply Forall_cons; [right; right; reflexivity|].
  apply Forall_cons; [left; reflexivity | apply Forall_nil].
Defined.

(** ** The loop of [rewrite] *)

Lemma range_leb_refl r : range_leb r r = true.
Proof. apply range_leb_spec. lia. Qed.

Lemma range_leb_antisym r1 r2 :
  range_leb r1 r2 = true -> range_leb r2 r1 = true -> r1 = r2.
Proof.
  rewrite !range_leb_spec. destruct r1, r2; cbn [fst snd]. intros H1 H2.
  f_equal; lia.
Qed.

Lemma NoDup_map_fst_inj (l : list replacement) x y :
  NoDup (map fst l) -> In x l -> In y l -> fst x = fst y -> x = y.
Proof.
  induction l as [|z l IH]; intros Hnd Hx Hy E; [destruct Hx|].
  cbn [map] in Hnd. inversion Hnd as [|? ? Hnotin Hnd']; subst.
  destruct Hx as [->|Hx], Hy as [->|Hy].
  - reflexivity.
  - exfalso. apply Hnotin. rewrite E. now apply in_map.
  - exfalso. apply Hnotin. rewrite <- E. now apply in_map.
  - now apply IH.
Qed.

(** Edits with distinct ranges have one descending order. *)
Lemma descending_unique l1 : forall l2,
  descending l1 -> descending l2 -> Permutation l1 l2 ->
  NoDup (map fst l1) -> l1 = l2.
Proof.
  unfold descending.
  induction l1 as [|x l1 IH]; intros l2 H1 H2 Hp Hnd.
  { apply Permutation_nil in Hp. now subst. }
  destruct l2 as [|y l2].
  { apply Permutation_sym, Permutation_nil in Hp. discriminate Hp. }
  apply StronglySorted_inv in H1. destruct H1 as (H1 & Hx).
  apply StronglySorted_inv in H2. destruct H2 as (H2 & Hy).
  rewrite Forall_forall in Hx, Hy.
  assert (Hyx : range_leb (fst y) (fst x) = true).
  { assert (Hin : In y (x :: l1)).
    { apply (Permutation_in _ (Permutation_sym Hp)). now left. }
    destruct Hin as [<-|Hin]; [apply range_leb_refl | now apply Hx]. }
  assert (Hxy : range_leb (fst x) (fst y) = true).
  { assert (Hin : In x (y :: l2)).
    { apply (Permutation_in _ Hp). now left. }
    destruct Hin as [<-|Hin]; [apply range_leb_refl | now apply Hy]. }
  assert (E : x = y).
  { apply (NoDup_map_fst_inj (x :: l1)); auto.
    - now left.
    - apply (Permutation_in _ (Permutation_sym Hp)). now left.
    - now apply range_leb_antisym. }
  subst y. f_equal. apply IH; auto.
  - now apply Permutation_cons_inv in Hp.
  - cbn [map] in Hnd. now inversion Hnd.
Qed.

(** X7: the order in which the edits were recorded does not matter.  Two
    edit lists with the same edits, all at different ranges, are sorted
    into the same list and give the same text. *)
Theorem recording_order_irrelevant :
  forall src l1 l2,
    Permutation l1 l2 ->
    NoDup (map fst l1) ->
    sorted_desc l1 = sorted_desc l2 /\
    apply_replacements src l1 = apply_replacements src l2.
Proof.
  intros src l1 l2 Hp Hnd.
  assert (E : sorted_desc l1 = sorted_desc l2).
  { apply descending_unique; try apply sorted_desc_sorted.
    - rewrite <- (sorted_desc_perm l1), <- (sorted_desc_perm l2). exact Hp.
    - apply (Permutation_NoDup (Permutation_map fst (sorted_desc_perm l1))).
      exact Hnd. }
  split; [exact E|]. unfold apply_replacements. now rewrite E.
Qed.

Lemma recording_order_irrelevant_witness :
  apply_replacements two_source
    [((4, 13), squoted (py "abcd")); ((19, 26), squoted (py "hello"))] =
  apply_replacements two_source
    [((19, 26), squoted (py "hello")); ((4, 13), squoted (py "abcd"))].
Proof.
  apply (recording_order_irrelevant two_source).
  - apply perm_swap.
  - repeat constructor; cbn [In]; intuition discriminate.
Defined.

Lemma removed_perm l1 l2 : Permutation l1 l2 -> removed l1 = removed l2.
Proof.
  induction 1; cbn [removed fold_right] in *; try lia.
  fold (removed l) in *. fold (removed l') in *. lia.
Qed.

Lemma added_perm l1 l2 : Permutation l1 l2 -> added l1 = added l2.
Proof.
  induction 1; cbn [added fold_right] in *; try lia.
  fold (added l) in *. fold (added l') in *. lia.
Qed.

Lemma interleave_length src l : forall pos,
  chained pos l (length src) ->
  length (interleave src pos l) + removed l = (length src - pos) + added l.
Proof.
  induction l as [|[[a b] n] l IH]; intros pos Hc.
  - cbn [interleave removed added fold_right]. rewrite length_skipn. lia.
  - cbn [chained] in Hc. destruct Hc as (H1 & H2 & H3).
    pose proof (chained_le _ _ _ H3) as Hb. specialize (IH b H3).
    cbn [interleave removed added fold_right fst snd].
    fold (removed l). fold (added l).
    rewrite !length_app, slice_length by lia. lia.
Qed.

(** X8: with recorded spans that do not overlap, the length of the output
    is the length of the source, less the characters of the replaced spans,
    plus the characters of the new texts. *)
Theorem rewrite_length :
  forall isprintable src tree,
    let recorded_edits :=
      replacements (visit isprintable tree (mkRewriter src [])) in
    non_overlapping (length src) (map fst recorded_edits) ->
    length (rewrite isprintable src tree) + removed recorded_edits =
    length src + added recorded_edits.
Proof.
  intros p src tree recorded_edits Hno.
  destruct (apply_replacements_interleave src recorded_edits Hno) as (E & Hc).
  pose proof (rewrite_apply p src tree) as Hr. fold recorded_edits in Hr.
  rewrite Hr, E.
  rewrite (removed_perm _ _ (ascending_perm recorded_edits)).
  rewrite (added_perm _ _ (ascending_perm recorded_edits)).
  rewrite (interleave_length src _ 0 Hc). lia.
Qed.

Lemma rewrite_length_witness :
  length (rewrite isprintable_latin1 two_source two_tree) + 16 = 26 + 13.
Proof.
  apply (rewrite_length isprintable_latin1 two_source two_tree).
  change (map fst _) with [(4, 13); (19, 26)].
  change (length two_source) with 26. spans_do_not_overlap.
Defined.

(** X9: one turn of the loop.  For a span inside the text, the text before
    the span is kept, the new text reads back from the start of the span,
    and what follows it is the text after the span.  A span that starts at
    or after the end of the text raises nothing: the slices are cut at the
    end and the new text is appended. *)
Theorem splice_read_back :
  forall text a b new_source,
    a <= b ->
    let out := splice text ((a, b), new_source) in
    (a <= length text ->
     firstn a out = firstn a text /\
     slice out a (a + length new_source) = new_source /\
     skipn (a + length new_source) out = skipn b text) /\
    (length text <= a -> out = text ++ new_source).
Proof.
  intros text a b new Hab out. unfold out, splice. split.
  - intros Ha.
    assert (Hl : length (firstn a text) = a) by (rewrite length_firstn; lia).
    repeat split.
    + rewrite firstn_app, Hl, Nat.sub_diag, firstn_O, app_nil_r.
      apply firstn_all2. lia.
    + rewrite <- Hl at 2 3. rewrite <- (Nat.add_0_r (length (firstn a text))) at 1.
      rewrite slice_app_r, slice_app_l by lia. apply slice_whole.
    + rewrite <- Hl at 1. rewrite app_assoc, <- length_app.
      rewrite skipn_app, skipn_all, Nat.sub_diag. reflexivity.
  - intros Ha. rewrite firstn_all2, skipn_all2 by lia. now rewrite app_nil_r.
Qed.

Lemma splice_read_back_witness :
  slice (splice hello_source ((4, 11), dquoted (py "hello"))) 4 11 =
  dquoted (py "hello").
Proof.
  assert (H : 4 <= 11) by lia.
  destruct (splice_read_back hello_source 4 11 (dquoted (py "hello")) H)
    as (Hin & _).
  destruct Hin as (_ & E & _); [cbn; lia|]. exact E.
Defined.

(** X10: the edits of a run keep the layout of the literals.  When the
    mapped ranges of the string constants are distinct, non-empty, inside
    the text and pairwise apart, so are the ranges of the recorded edits:
    no two edits overlap and none reaches outside the source. *)
Theorem recorded_spans_do_not_overlap :
  forall isprintable src tree,
    non_overlapping (length src) (mapped_spans tree) ->
    non_overlapping (length src)
      (map fst (replacements (visit isprintable tree (mkRewriter src [])))).
Proof.
  intros p src tree H. rewrite visit_edits. cbn [replacements].
  now apply edits_non_overlapping.
Qed.

Lemma recorded_spans_do_not_overlap_witness :
  non_overlapping (length two_source)
    (map fst (replacements
                (visit isprintable_latin1 two_tree (mkRewriter two_source [])))).
Proof.
  apply recorded_spans_do_not_overlap.
  change (mapped_spans two_tree) with [(4, 13); (19, 26)].
  change (length two_source) with 26. spans_do_not_overlap.
Defined.

(** ** Text that is already in the form the rewriter writes *)

Lemma recorded_canonical isprintable src x :
  canonical isprintable src x ->
  Forall (fixed src) (recorded isprintable src x).
Proof.
  intros [H|H]; [rewrite (recorded_skipped _ _ _ H); constructor|].
  destruct x as [[d s] r]. cbn [fst snd] in H. unfold recorded.
  destruct (range_eqb r (0, 0)); [constructor|].
  destruct (decision isprintable d (slice src (fst r) (snd r)) s) as [n|] eqn:E;
    [|constructor].
  assert (Hn : slice src (fst r) (snd r) = n).
  { destruct H as [H|H]; rewrite H in E |- *.
    - unfold decision in E. destruct d; [discriminate E|].
      cbn in E. now injection E.
    - destruct d; [discriminate E|].
      destruct (decision_repr isprintable s) as [H'|H']; congruence. }
  constructor; [|constructor]. unfold fixed. cbn [fst snd]. split; [|exact Hn].
  assert (Hne : slice src (fst r) (snd r) <> []).
  { rewrite Hn. eapply decision_nonempty; exact E. }
  apply slice_nonempty in Hne. lia.
Qed.

(** X11: a source in which every string constant is skipped, or is already
    spelled as two single quotes or as the [repr] of its value, comes back
    from [rewrite] as it is: each edit that is recorded writes the text its
    span already holds. *)
Theorem canonical_source_unchanged :
  forall isprintable src tree,
    Forall (canonical isprintable src) (literals tree) ->
    Forall (fixed src)
      (replacements (visit isprintable tree (mkRewriter src []))) /\
    rewrite isprintable src tree = src.
Proof.
  intros p src tree H.
  assert (Hf : Forall (fixed src) (edits p src tree)).
  { unfold edits. induction H as [|x l Hx Hl IH]; [constructor|].
    cbn [flat_map]. apply Forall_app. split; [|exact IH].
    now apply recorded_canonical. }
  split.
  - now rewrite visit_edits.
  - rewrite rewrite_edits. now apply apply_fixed.
Qed.

Lemma canonical_source_unchanged_witness :
  rewrite isprintable_latin1 hello_source hello_tree = hello_source.
Proof.
  apply (canonical_source_unchanged isprintable_latin1 hello_source hello_tree).
  change (literals hello_tree) with [(false, py "hello", (4, 11))].
  apply Forall_cons; [|apply Forall_nil].
  right. right. reflexivity.
Defined.
